(** * Chess move-legality engine and game session

    A shallow embedding of the chess core of the repository:

    - [ChessLogic]: the move validator ([ChessLogic.ts]; the server's
      [ChessValidator.js] is the same code in JavaScript, function by
      function);
    - [ChessGame]: the per-game session class of [server.js];
    - [Server]: the two chess routes that mutate a session.

    JavaScript strings are sequences of UTF-16 code units, objects used as
    dictionaries are finite maps, and a computation that may fail to return
    (the path-walking [while] loop) lives in the [option] monad.

    Arguments are the strings and integer-valued numbers their TypeScript
    signatures announce. The clock ([new Date()], [Date.now()]) and the
    answer of the external move chooser are inputs of the functions that
    read them. Each request is handled in one piece; the interleaving of
    requests around the awaited move chooser is not modelled. *)

From Stdlib Require Import ZArith NArith DecimalString Ascii String.
From stdpp Require Import gmap list option.

Open Scope Z_scope.

(** ** JavaScript strings, numbers and truthiness *)

(** A string is the list of its UTF-16 code units. *)
Abbreviation jsstring := (list N).

(** An ASCII literal of the source as a [jsstring]. *)
Definition js (s : string) : jsstring := N_of_ascii <$> list_ascii_of_string s.

(** [s.startsWith(t)]. *)
Fixpoint startsWith (s t : jsstring) : bool :=
  match t, s with
  | [], _ => true
  | _ :: _, [] => false
  | c :: t', d :: s' => bool_decide (c = d) && startsWith s' t'
  end.

(** [s.includes(t)]: [t] occurs in [s] as a contiguous run of code units. *)
Fixpoint includes (s t : jsstring) : bool :=
  startsWith s t ||
  match s with
  | [] => false
  | _ :: s' => includes s' t
  end.

(** A value read from a dictionary of strings is [undefined] ([None]) or a
    string; in a boolean context [undefined] and the empty string are falsy. *)
Definition truthy (v : option jsstring) : bool :=
  match v with
  | Some (_ :: _) => true
  | _ => false
  end.

(** [String.fromCharCode(n)] for an integer [n]: the code unit [n mod 2^16]. *)
Definition fromCharCode (n : Z) : jsstring := [Z.to_N (n mod 65536)].

(** The decimal text of an integer, as [s + n] appends it to a string (the
    integers met here are far below the size where JavaScript switches to
    exponent notation). *)
Definition numberToString (n : Z) : jsstring :=
  js (NilZero.string_of_int (Z.to_int n)).

(** [parseInt(c)] for a string [c] of one code unit: its value when [c] is a
    decimal digit, [NaN] ([None]) otherwise. *)
Definition parseInt1 (c : N) : option Z :=
  if bool_decide (48 <= c)%N && bool_decide (c <= 57)%N
  then Some (Z.of_N c - 48)
  else None.

(** ** The validator *)

Module ChessLogic.

Inductive Color := white | black.

#[global] Instance Color_eq_dec : EqDecision Color.
Proof. solve_decision. Defined.

(** What [getPieceType] can return: one of the six kind names, ['unknown'],
    or a member that [pieceMap] inherits from [Object.prototype] (a function
    or an object, not a kind name). *)
Inductive PieceType :=
  king | queen | rook | bishop | knight | pawn | unknown | inheritedMember.

#[global] Instance PieceType_eq_dec : EqDecision PieceType.
Proof. solve_decision. Defined.

(** The twelve glyphs, U+2654 .. U+265F. *)
Definition whiteKing : jsstring := [0x2654%N].
Definition whiteQueen : jsstring := [0x2655%N].
Definition whiteRook : jsstring := [0x2656%N].
Definition whiteBishop : jsstring := [0x2657%N].
Definition whiteKnight : jsstring := [0x2658%N].
Definition whitePawn : jsstring := [0x2659%N].
Definition blackKing : jsstring := [0x265A%N].
Definition blackQueen : jsstring := [0x265B%N].
Definition blackRook : jsstring := [0x265C%N].
Definition blackBishop : jsstring := [0x265D%N].
Definition blackKnight : jsstring := [0x265E%N].
Definition blackPawn : jsstring := [0x265F%N].

(** A board is the object [Record<string, string>]: square name to glyph.
    It is only ever read under the name of a square (a checked two-character
    name, or a name built by [formatSquare]), never under the name of an
    inherited property, so a finite map has the same lookups. *)
Abbreviation Board := (gmap jsstring jsstring).

Record Coords := { file : Z; rank : Z }.

Definition isValidSquare (square : jsstring) : bool :=
  match square with
  | [c0; c1] => includes (js "abcdefgh") [c0] && includes (js "12345678") [c1]
  | _ => false
  end.

Definition isWhitePiece (piece : jsstring) : bool :=
  includes (whiteKing ++ whiteQueen ++ whiteRook ++ whiteBishop ++ whiteKnight ++ whitePawn) piece.

Definition isBlackPiece (piece : jsstring) : bool :=
  includes (blackKing ++ blackQueen ++ blackRook ++ blackBishop ++ blackKnight ++ blackPawn) piece.

Definition getPieceColor (piece : jsstring) : option Color :=
  if isWhitePiece piece then Some white
  else if isBlackPiece piece then Some black
  else None.

Definition pieceMap : gmap jsstring PieceType :=
  list_to_map
    [ (whiteKing, king); (blackKing, king);
      (whiteQueen, queen); (blackQueen, queen);
      (whiteRook, rook); (blackRook, rook);
      (whiteBishop, bishop); (blackBishop, bishop);
      (whiteKnight, knight); (blackKnight, knight);
      (whitePawn, pawn); (blackPawn, pawn) ].

(** The property names every object literal inherits from
    [Object.prototype]; the value under each is truthy. *)
Definition objectPrototypeKeys : list jsstring :=
  [ js "constructor"; js "hasOwnProperty"; js "isPrototypeOf";
    js "propertyIsEnumerable"; js "toLocaleString"; js "toString"; js "valueOf";
    js "__proto__"; js "__defineGetter__"; js "__defineSetter__";
    js "__lookupGetter__"; js "__lookupSetter__" ].

(** [pieceMap[piece] || 'unknown']: the kind of a glyph; the inherited
    member when [piece] is the name of one (truthy, so the [||] keeps it);
    ['unknown'] otherwise. *)
Definition getPieceType (piece : jsstring) : PieceType :=
  match pieceMap !! piece with
  | Some kind => kind
  | None =>
      if bool_decide (piece ∈ objectPrototypeKeys) then inheritedMember else unknown
  end.

(** [None] where JavaScript yields [NaN] in a coordinate: the string has
    fewer than two code units or the second is not a decimal digit. *)
Definition getSquareCoordinates (square : jsstring) : option Coords :=
  match square with
  | c0 :: c1 :: _ =>
      r ← parseInt1 c1;
      Some {| file := Z.of_N c0 - 97; rank := r - 1 |}
  | _ => None
  end.

(** The expression
    [String.fromCharCode('a'.charCodeAt(0) + file) + (rank + 1)]
    that names the square at zero-based [file] and [rank]. *)
Definition formatSquare (file rank : Z) : jsstring :=
  fromCharCode (97 + file) ++ numberToString (rank + 1).

Definition isValidPawnMove (board : Board) (from to : Coords) (isWhite : bool) : bool :=
  let direction := if isWhite then 1 else -1 in
  let startRank := if isWhite then 1 else 6 in
  let fileDiff := Z.abs (file to - file from) in
  let rankDiff := rank to - rank from in
  if bool_decide (fileDiff = 0) then
    if bool_decide (rankDiff = direction) then
      let targetSquare := formatSquare (file to) (rank to) in
      negb (truthy (board !! targetSquare))
    else if bool_decide (rankDiff = 2 * direction) && bool_decide (rank from = startRank) then
      let oneSquareForward := formatSquare (file to) (rank from + direction) in
      let twoSquaresForward := formatSquare (file to) (rank to) in
      negb (truthy (board !! oneSquareForward)) && negb (truthy (board !! twoSquaresForward))
    else false
  else if bool_decide (fileDiff = 1) && bool_decide (rankDiff = direction) then
    let targetSquare := formatSquare (file to) (rank to) in
    match board !! targetSquare with
    | Some ((_ :: _) as targetPiece) =>
        bool_decide (getPieceColor targetPiece ≠ Some (if isWhite then white else black))
    | _ => false
    end
  else false.

(** The [while] loop of [isPathClear], run for at most [fuel] tests of its
    condition; [None] when the budget is used up before the loop exits. *)
Fixpoint isPathClear_loop (fuel : nat) (board : Board) (to : Coords)
    (fileStep rankStep currentFile currentRank : Z) : option bool :=
  match fuel with
  | O => None
  | S fuel' =>
      if bool_decide (currentFile ≠ file to) || bool_decide (currentRank ≠ rank to) then
        let square := formatSquare currentFile currentRank in
        if truthy (board !! square) then Some false
        else isPathClear_loop fuel' board to fileStep rankStep
               (currentFile + fileStep) (currentRank + rankStep)
      else Some true
  end.

(** Tests of the loop condition that a walk between aligned squares needs
    at most. *)
Definition pathFuel (from to : Coords) : nat :=
  S (Z.to_nat (Z.max (Z.abs (file to - file from)) (Z.abs (rank to - rank from)))).

(** [isPathClear] is private and called only once its caller has checked
    that [from] and [to] share a file, a rank or a diagonal. On such squares
    the loop exits within [pathFuel] tests ([isPathClear_returns] below),
    and more budget never changes a result ([isPathClear_loop_more_fuel]). *)
Definition isPathClear (board : Board) (from to : Coords) : option bool :=
  let fileStep :=
    if bool_decide (file to > file from) then 1
    else if bool_decide (file to < file from) then -1 else 0 in
  let rankStep :=
    if bool_decide (rank to > rank from) then 1
    else if bool_decide (rank to < rank from) then -1 else 0 in
  let currentFile := file from + fileStep in
  let currentRank := rank from + rankStep in
  isPathClear_loop (pathFuel from to) board to fileStep rankStep currentFile currentRank.

Definition isValidRookMove (board : Board) (from to : Coords) : option bool :=
  if bool_decide (file from ≠ file to) && bool_decide (rank from ≠ rank to) then
    Some false
  else
    isPathClear board from to.

Definition isValidBishopMove (board : Board) (from to : Coords) : option bool :=
  let fileDiff := Z.abs (file to - file from) in
  let rankDiff := Z.abs (rank to - rank from) in
  if bool_decide (fileDiff ≠ rankDiff) then
    Some false
  else
    isPathClear board from to.

(** [rook || bishop]: the bishop rule is consulted only when the rook rule
    says no. *)
Definition isValidQueenMove (board : Board) (from to : Coords) : option bool :=
  isValidRookMove board from to ≫= λ r : bool,
  if r then Some true else isValidBishopMove board from to.

Definition isValidKingMove (from to : Coords) : bool :=
  let fileDiff := Z.abs (file to - file from) in
  let rankDiff := Z.abs (rank to - rank from) in
  bool_decide (fileDiff <= 1) && bool_decide (rankDiff <= 1) &&
  (bool_decide (fileDiff > 0) || bool_decide (rankDiff > 0)).

Definition isValidKnightMove (from to : Coords) : bool :=
  let fileDiff := Z.abs (file to - file from) in
  let rankDiff := Z.abs (rank to - rank from) in
  (bool_decide (fileDiff = 2) && bool_decide (rankDiff = 1)) ||
  (bool_decide (fileDiff = 1) && bool_decide (rankDiff = 2)).

Definition isValidPieceMove (board : Board) (from to piece : jsstring) : option bool :=
  fromCoords ← getSquareCoordinates from;
  toCoords ← getSquareCoordinates to;
  let pieceType := getPieceType piece in
  let isWhite := isWhitePiece piece in
  match pieceType with
  | pawn => Some (isValidPawnMove board fromCoords toCoords isWhite)
  | rook => isValidRookMove board fromCoords toCoords
  | bishop => isValidBishopMove board fromCoords toCoords
  | queen => isValidQueenMove board fromCoords toCoords
  | king => Some (isValidKingMove fromCoords toCoords)
  | knight => Some (isValidKnightMove fromCoords toCoords)
  | unknown | inheritedMember => Some false
  end.

Definition isValidMove (board : Board) (from to : jsstring) (currentPlayer : Color)
    : option bool :=
  if negb (isValidSquare from) || negb (isValidSquare to) then Some false
  else
    match board !! from with
    | Some ((_ :: _) as piece) =>
        let pieceColor := getPieceColor piece in
        if bool_decide (pieceColor ≠ Some currentPlayer) then Some false
        else
          let ownTarget :=
            match board !! to with
            | Some ((_ :: _) as targetPiece) =>
                bool_decide (getPieceColor targetPiece = Some currentPlayer)
            | _ => false
            end in
          if ownTarget then Some false
          else isValidPieceMove board from to piece
    | _ => Some false
    end.

(** The two nested [for] loops of [getValidMoves]: files outermost, ranks
    innermost, each accepted target pushed in that order. *)
Definition getValidMoves (board : Board) (square : jsstring) (currentPlayer : Color)
    : option (list jsstring) :=
  foldl
    (λ (acc : option (list jsstring)) (fr : Z * Z),
       acc ≫= λ validMoves : list jsstring,
       let targetSquare := formatSquare fr.1 fr.2 in
       isValidMove board square targetSquare currentPlayer ≫= λ ok : bool,
       Some (if ok then validMoves ++ [targetSquare] else validMoves))
    (Some [])
    (seqZ 0 8 ≫= λ f : Z, seqZ 0 8 ≫= λ r : Z, [(f, r)]).

End ChessLogic.

(** ** The game session *)

(** One entry of [moveHistory]. [timestamp] is the text that
    [new Date().toISOString()] returned when the move was made. *)
Module ChessMove.

Record t := {
  from : jsstring;
  to : jsstring;
  piece : jsstring;
  player : ChessLogic.Color;
  timestamp : jsstring
}.

End ChessMove.

(** The object that [getGameState] builds for the HTTP layer. *)
Module GameState.

Record t := {
  gameId : jsstring;
  board : ChessLogic.Board;
  currentPlayer : ChessLogic.Color;
  moveHistory : list ChessMove.t;
  gameOver : bool;
  winner : option jsstring;
  moveCount : nat
}.

End GameState.

Module ChessGame.

Import ChessLogic.

(** The fields of a [ChessGame] object; [winner] is [null] ([None]) or a
    string. *)
Record t := {
  gameId : jsstring;
  board : Board;
  currentPlayer : Color;
  moveHistory : list ChessMove.t;
  gameOver : bool;
  winner : option jsstring
}.

(** [Object.assign(target, source)] for an object literal [source], its
    properties copied in the order they are written. *)
Definition assign (target : Board) (source : list (jsstring * jsstring)) : Board :=
  foldl (λ (b : Board) (kv : jsstring * jsstring), <[kv.1 := kv.2]> b) target source.

Definition initBoard : Board :=
  let board : Board := ∅ in
  let board := assign board
    [ (js "a1", whiteRook); (js "b1", whiteKnight); (js "c1", whiteBishop); (js "d1", whiteQueen);
      (js "e1", whiteKing); (js "f1", whiteBishop); (js "g1", whiteKnight); (js "h1", whiteRook);
      (js "a2", whitePawn); (js "b2", whitePawn); (js "c2", whitePawn); (js "d2", whitePawn);
      (js "e2", whitePawn); (js "f2", whitePawn); (js "g2", whitePawn); (js "h2", whitePawn) ] in
  let board := assign board
    [ (js "a8", blackRook); (js "b8", blackKnight); (js "c8", blackBishop); (js "d8", blackQueen);
      (js "e8", blackKing); (js "f8", blackBishop); (js "g8", blackKnight); (js "h8", blackRook);
      (js "a7", blackPawn); (js "b7", blackPawn); (js "c7", blackPawn); (js "d7", blackPawn);
      (js "e7", blackPawn); (js "f7", blackPawn); (js "g7", blackPawn); (js "h7", blackPawn) ] in
  board.

(** [new ChessGame(gameId)]. *)
Definition new (gameId : jsstring) : t :=
  {| gameId := gameId;
     board := initBoard;
     currentPlayer := white;
     moveHistory := [];
     gameOver := false;
     winner := None |}.

(** [makeMove(fromSquare, toSquare)] with the clock reading [now]; the result
    pairs the returned boolean with the object's fields after the call. *)
Definition makeMove (this : t) (fromSquare toSquare now : jsstring) : option (bool * t) :=
  if negb (isValidSquare fromSquare) || negb (isValidSquare toSquare) then
    Some (false, this)
  else
    match board this !! fromSquare with
    | Some ((_ :: _) as piece) =>
        isValidMove (board this) fromSquare toSquare (currentPlayer this) ≫= λ valid : bool,
        if negb valid then Some (false, this)
        else
          let board1 := <[toSquare := piece]> (board this) in
          let board2 := delete fromSquare board1 in
          let record :=
            {| ChessMove.from := fromSquare;
               ChessMove.to := toSquare;
               ChessMove.piece := piece;
               ChessMove.player := currentPlayer this;
               ChessMove.timestamp := now |} in
          Some (true,
                {| gameId := gameId this;
                   board := board2;
                   currentPlayer :=
                     if bool_decide (currentPlayer this = white) then black else white;
                   moveHistory := moveHistory this ++ [record];
                   gameOver := gameOver this;
                   winner := winner this |})
    | _ => Some (false, this)
    end.

Definition getGameState (this : t) : GameState.t :=
  {| GameState.gameId := gameId this;
     GameState.board := board this;
     GameState.currentPlayer := currentPlayer this;
     GameState.moveHistory := moveHistory this;
     GameState.gameOver := gameOver this;
     GameState.winner := winner this;
     GameState.moveCount := length (moveHistory this) |}.

(** The sessions a server can hold: a fresh one, and whatever [makeMove]
    leaves behind, accepted or not. *)
Inductive reachable : t → Prop :=
| reachable_new (gameId : jsstring) : reachable (new gameId)
| reachable_makeMove (this : t) (fromSquare toSquare now : jsstring) (ok : bool) (this' : t) :
    reachable this →
    makeMove this fromSquare toSquare now = Some (ok, this') →
    reachable this'.

End ChessGame.

(** ** The chess routes *)

Module Server.

Import ChessLogic.

(** [gameStates]: the [Map] from game id to the [ChessGame] object. A handler
    that mutates the object it looked up is modelled by storing the new
    fields back under the same id. *)
Abbreviation Registry := (gmap jsstring ChessGame.t).

(** What [getAIMove] hands back: the promise rejects, or resolves to an
    object with a [success] flag and possibly a [move]. *)
Inductive AIResponse :=
| AIRejected
| AIResolved (success : bool) (move : option (jsstring * jsstring)).

(** The JSON answers of the chess routes, by status and [error] text. *)
Inductive Response :=
| Created (gameId : jsstring) (gameState : GameState.t)
| GameNotFound                       (* 404 'Game not found' *)
| NotYourTurn                        (* 400 'Not your turn' *)
| InvalidMove                        (* 400 'Invalid move' *)
| MoveOk (gameState : GameState.t)
| NotAITurn                          (* 400 'Not AI turn' *)
| AIInvalidMove                      (* 500 'AI made invalid move' *)
| AIFailedToGenerate                 (* 500 'AI failed to generate move' *)
| AIServiceUnavailable               (* 500 'AI service unavailable' *)
| AIMoveOk (aiMove : jsstring * jsstring) (gameState : GameState.t).

(** [POST /api/game/new]; [gameId] is [Date.now().toString()]. *)
Definition postGameNew (gameStates : Registry) (gameId : jsstring) : Response * Registry :=
  let game := ChessGame.new gameId in
  (Created gameId (ChessGame.getGameState game), <[gameId := game]> gameStates).

(** [POST /api/game/:gameId/move] with body [{from, to}], for a body whose
    [from] and [to] are strings. The handler passes the two fields on as they
    come; what it does on a body without them, or with values that are not
    strings, is not described by this function. *)
Definition postMove (gameStates : Registry) (gameId from to now : jsstring)
    : option (Response * Registry) :=
  match gameStates !! gameId with
  | None => Some (GameNotFound, gameStates)
  | Some game =>
      if bool_decide (ChessGame.currentPlayer game ≠ white) then
        Some (NotYourTurn, gameStates)
      else
        ChessGame.makeMove game from to now ≫= λ r : bool * ChessGame.t,
        let moveSuccess := r.1 in
        let gameStates' := <[gameId := r.2]> gameStates in
        if negb moveSuccess then Some (InvalidMove, gameStates')
        else Some (MoveOk (ChessGame.getGameState r.2), gameStates')
  end.

(** [POST /api/game/:gameId/ai-move], one request taken from its start to
    its answer; [aiResponse] is the outcome of the awaited [getAIMove(game)].
    The handler pauses at the [await] between its turn check and its call of
    [makeMove]; requests served during that pause are not described by this
    function, which reads the session once. *)
Definition postAiMove (gameStates : Registry) (gameId : jsstring)
    (aiResponse : AIResponse) (now : jsstring) : option (Response * Registry) :=
  match gameStates !! gameId with
  | None => Some (GameNotFound, gameStates)
  | Some game =>
      if bool_decide (ChessGame.currentPlayer game ≠ black) then
        Some (NotAITurn, gameStates)
      else
        match aiResponse with
        | AIRejected => Some (AIServiceUnavailable, gameStates)
        | AIResolved true (Some move) =>
            ChessGame.makeMove game move.1 move.2 now ≫= λ r : bool * ChessGame.t,
            let moveSuccess := r.1 in
            let gameStates' := <[gameId := r.2]> gameStates in
            if moveSuccess then Some (AIMoveOk move (ChessGame.getGameState r.2), gameStates')
            else Some (AIInvalidMove, gameStates')
        | AIResolved _ _ => Some (AIFailedToGenerate, gameStates)
        end
  end.

(** The answers of [GET /api/game/:gameId]. *)
Inductive GetResponse :=
| Found (gameState : GameState.t)
| NotFound.                          (* 404 'Game not found' *)

(** [GET /api/game/:gameId]: a read; the registry is not touched. *)
Definition getGame (gameStates : Registry) (gameId : jsstring) : GetResponse :=
  match gameStates !! gameId with
  | None => NotFound
  | Some game => Found (ChessGame.getGameState game)
  end.

(** The registries the chess routes can build, starting from the empty
    [Map] the server boots with. *)
Inductive served : Registry → Prop :=
| served_boot : served ∅
| served_new (gameStates : Registry) (gameId : jsstring) :
    served gameStates →
    served (postGameNew gameStates gameId).2
| served_move (gameStates : Registry) (gameId from to now : jsstring)
    (response : Response) (gameStates' : Registry) :
    served gameStates →
    postMove gameStates gameId from to now = Some (response, gameStates') →
    served gameStates'
| served_aiMove (gameStates : Registry) (gameId : jsstring) (aiResponse : AIResponse)
    (now : jsstring) (response : Response) (gameStates' : Registry) :
    served gameStates →
    postAiMove gameStates gameId aiResponse now = Some (response, gameStates') →
    served gameStates'.

End Server.

(** ** Tic-tac-toe: the server's session class *)

Module TicTacToeGame.

Inductive Player := X | O.

#[global] Instance Player_eq_dec : EqDecision Player.
Proof. solve_decision. Defined.

(** A cell holds ['X'], ['O'] or [null]. *)
Abbreviation Cell := (option Player).

Record t := {
  gameId : jsstring;
  board : list Cell;
  currentPlayer : Player;
  winner : option Player;
  isDraw : bool;
  isGameOver : bool;
  moveCount : Z
}.

(** [new TicTacToeGame(gameId)]; the board is [Array(9).fill(null)]. *)
Definition new (gameId : jsstring) : t :=
  {| gameId := gameId;
     board := replicate 9 None;
     currentPlayer := X;
     winner := None;
     isDraw := false;
     isGameOver := false;
     moveCount := 0 |}.

(** [position] is an integer-valued number. Reading the array outside its
    bounds gives [undefined], which is not [null]. *)
Definition isValidMove (this : t) (position : Z) : bool :=
  bool_decide (position >= 0) && bool_decide (position < 9) &&
  bool_decide (board this !! Z.to_nat position = Some None).

Definition winPatterns : list (nat * nat * nat) :=
  [ (0, 1, 2); (3, 4, 5); (6, 7, 8);
    (0, 3, 6); (1, 4, 7); (2, 5, 8);
    (0, 4, 8); (2, 4, 6) ]%nat.

(** The [for] loop of [checkWinner] over the patterns still to try. *)
Fixpoint checkWinner_loop (board : list Cell) (patterns : list (nat * nat * nat))
    : option Player :=
  match patterns with
  | [] => None
  | (a, b, c) :: patterns' =>
      match board !! a with
      | Some (Some p) =>
          if bool_decide (board !! b = Some (Some p)) &&
             bool_decide (board !! c = Some (Some p))
          then Some p
          else checkWinner_loop board patterns'
      | _ => checkWinner_loop board patterns'
      end
  end.

Definition checkWinner (this : t) : option Player :=
  checkWinner_loop (board this) winPatterns.

(** [makeMove(position)]: the returned boolean and the object's fields after
    the call. The cell is written only once [isValidMove] has found it inside
    the array. *)
Definition makeMove (this : t) (position : Z) : bool * t :=
  if negb (isValidMove this position) || isGameOver this then (false, this)
  else
    let this1 :=
      {| gameId := gameId this;
         board := <[Z.to_nat position := Some (currentPlayer this)]> (board this);
         currentPlayer := currentPlayer this;
         winner := winner this;
         isDraw := isDraw this;
         isGameOver := isGameOver this;
         moveCount := moveCount this + 1 |} in
    let winner' := checkWinner this1 in
    let isDraw' := negb (bool_decide (is_Some winner')) && bool_decide (moveCount this1 = 9) in
    let isGameOver' := bool_decide (winner' ≠ None) || isDraw' in
    (true,
     {| gameId := gameId this1;
        board := board this1;
        currentPlayer := if bool_decide (currentPlayer this1 = X) then O else X;
        winner := winner';
        isDraw := isDraw';
        isGameOver := isGameOver';
        moveCount := moveCount this1 |}).

(** The sessions a server can hold: a fresh one and whatever [makeMove]
    leaves behind. *)
Inductive reachable : t → Prop :=
| reachable_new (gameId : jsstring) : reachable (new gameId)
| reachable_makeMove (this : t) (position : Z) :
    reachable this → reachable (makeMove this position).2.

End TicTacToeGame.

(** ** Tic-tac-toe: the client's pure twin *)

Module TicTacToeLogic.

Import TicTacToeGame (Player, X, O).

Record GameState := {
  board : list (option Player);
  currentPlayer : Player;
  winner : option Player;
  isDraw : bool;
  isGameOver : bool;
  moveCount : Z
}.

Record GameStats := {
  xWins : Z;
  oWins : Z;
  draws : Z;
  totalGames : Z
}.

Definition createInitialState : GameState :=
  {| board := replicate 9 None;
     currentPlayer := X;
     winner := None;
     isDraw := false;
     isGameOver := false;
     moveCount := 0 |}.

Definition isValidMove (board : list (option Player)) (position : Z) : bool :=
  bool_decide (position >= 0) && bool_decide (position < 9) &&
  bool_decide (board !! Z.to_nat position = Some None).

Definition winPatterns : list (nat * nat * nat) :=
  [ (0, 1, 2); (3, 4, 5); (6, 7, 8);
    (0, 3, 6); (1, 4, 7); (2, 5, 8);
    (0, 4, 8); (2, 4, 6) ]%nat.

Fixpoint checkWinner_loop (board : list (option Player)) (patterns : list (nat * nat * nat))
    : option Player :=
  match patterns with
  | [] => None
  | (a, b, c) :: patterns' =>
      match board !! a with
      | Some (Some p) =>
          if bool_decide (board !! b = Some (Some p)) &&
             bool_decide (board !! c = Some (Some p))
          then Some p
          else checkWinner_loop board patterns'
      | _ => checkWinner_loop board patterns'
      end
  end.

Definition checkWinner (board : list (option Player)) : option Player :=
  checkWinner_loop board winPatterns.

(** The same loop, returning the pattern instead of its owner; [[]] when no
    pattern is filled. *)
Fixpoint getWinningPattern_loop (board : list (option Player))
    (patterns : list (nat * nat * nat)) : list nat :=
  match patterns with
  | [] => []
  | (a, b, c) :: patterns' =>
      match board !! a with
      | Some (Some p) =>
          if bool_decide (board !! b = Some (Some p)) &&
             bool_decide (board !! c = Some (Some p))
          then [a; b; c]
          else getWinningPattern_loop board patterns'
      | _ => getWinningPattern_loop board patterns'
      end
  end.

Definition getWinningPattern (board : list (option Player)) : list nat :=
  getWinningPattern_loop board winPatterns.

(** [makeMove(gameState, position)]: a new state, or the state it was given
    when the move is not allowed. *)
Definition makeMove (gameState : GameState) (position : Z) : GameState :=
  if negb (isValidMove (board gameState) position) || isGameOver gameState then gameState
  else
    let newBoard := <[Z.to_nat position := Some (currentPlayer gameState)]> (board gameState) in
    let newMoveCount := moveCount gameState + 1 in
    let winner := checkWinner newBoard in
    let isDraw := negb (bool_decide (is_Some winner)) && bool_decide (newMoveCount = 9) in
    let isGameOver := bool_decide (winner ≠ None) || isDraw in
    {| board := newBoard;
       currentPlayer := if bool_decide (currentPlayer gameState = X) then O else X;
       winner := winner;
       isDraw := isDraw;
       isGameOver := isGameOver;
       moveCount := newMoveCount |}.

(** [n += 1] on a counter. The counters are doubles; [n] stands for an
    integer-valued one. Below 2^53 in size the sum is exact. From 2^53 to
    2^54 the doubles are the even integers and [n + 1] lies midway between
    two of them: it is rounded to the one with the even mantissa. Beyond, the
    sum is rounded back to [n]. *)
Definition plusOne (n : Z) : Z :=
  if bool_decide (- 2 ^ 53 ≤ n < 2 ^ 53) then n + 1
  else if bool_decide (Z.abs n < 2 ^ 54) then (if Z.even (n / 2) then n else n + 2)
  else n.

Definition updateStats (prevStats : GameStats) (gameState : GameState) : GameStats :=
  if negb (isGameOver gameState) then prevStats
  else
    let totalGames' := plusOne (totalGames prevStats) in
    if bool_decide (winner gameState = Some X) then
      {| xWins := plusOne (xWins prevStats); oWins := oWins prevStats;
         draws := draws prevStats; totalGames := totalGames' |}
    else if bool_decide (winner gameState = Some O) then
      {| xWins := xWins prevStats; oWins := plusOne (oWins prevStats);
         draws := draws prevStats; totalGames := totalGames' |}
    else if isDraw gameState then
      {| xWins := xWins prevStats; oWins := oWins prevStats;
         draws := plusOne (draws prevStats); totalGames := totalGames' |}
    else
      {| xWins := xWins prevStats; oWins := oWins prevStats;
         draws := draws prevStats; totalGames := totalGames' |}.

Definition createInitialStats : GameStats :=
  {| xWins := 0; oWins := 0; draws := 0; totalGames := 0 |}.

(** The states a client can show: the initial one and the results of
    [makeMove]. *)
Inductive reachable : GameState → Prop :=
| reachable_initial : reachable createInitialState
| reachable_makeMove (gameState : GameState) (position : Z) :
    reachable gameState → reachable (makeMove gameState position).

End TicTacToeLogic.

(** ** The tic-tac-toe routes *)

Module TicTacToeServer.

Import TicTacToeGame (Player, X, O).

(** [ticTacToeStates]: the [Map] from game id to the session object. *)
Abbreviation Registry := (gmap jsstring TicTacToeGame.t).

(** What [getTicTacToeAIMove] hands back: the promise rejects, or resolves
    to an object with a [success] flag and possibly a numeric [move] (here an
    integer-valued one). *)
Inductive AIResponse :=
| AIRejected
| AIResolved (success : bool) (move : option Z).

Inductive Response :=
| Created (gameId : jsstring) (gameState : TicTacToeGame.t)
| GameNotFound                       (* 404 'Game not found' *)
| NotYourTurn                        (* 400 'Not your turn' *)
| GameAlreadyOver                    (* 400 'Game is already over' *)
| InvalidMove                        (* 400 'Invalid move' *)
| MoveOk (gameState : TicTacToeGame.t)
| NotAITurn                          (* 400 'Not AI turn' *)
| AIInvalidMove                      (* 500 'AI made invalid move' *)
| AIFailedToGenerate                 (* 500 'AI failed to generate move' *)
| AIServiceUnavailable               (* 500 'AI service unavailable' *)
| AIMoveOk (aiMove : Z) (gameState : TicTacToeGame.t).

(** [POST /api/tictactoe/new]. *)
Definition postNew (ticTacToeStates : Registry) (gameId : jsstring) : Response * Registry :=
  let game := TicTacToeGame.new gameId in
  (Created gameId game, <[gameId := game]> ticTacToeStates).

(** [POST /api/tictactoe/:gameId/move] with body [{position}]. *)
Definition postMove (ticTacToeStates : Registry) (gameId : jsstring) (position : Z)
    : Response * Registry :=
  match ticTacToeStates !! gameId with
  | None => (GameNotFound, ticTacToeStates)
  | Some game =>
      if bool_decide (TicTacToeGame.currentPlayer game ≠ X) then
        (NotYourTurn, ticTacToeStates)
      else if TicTacToeGame.isGameOver game then
        (GameAlreadyOver, ticTacToeStates)
      else
        let r := TicTacToeGame.makeMove game position in
        let ticTacToeStates' := <[gameId := r.2]> ticTacToeStates in
        if negb r.1 then (InvalidMove, ticTacToeStates')
        else (MoveOk r.2, ticTacToeStates')
  end.

(** [POST /api/tictactoe/:gameId/ai-move]; [aiResponse] is the outcome of the
    awaited [getTicTacToeAIMove(game)]. *)
Definition postAiMove (ticTacToeStates : Registry) (gameId : jsstring)
    (aiResponse : AIResponse) : Response * Registry :=
  match ticTacToeStates !! gameId with
  | None => (GameNotFound, ticTacToeStates)
  | Some game =>
      if bool_decide (TicTacToeGame.currentPlayer game ≠ O) then
        (NotAITurn, ticTacToeStates)
      else if TicTacToeGame.isGameOver game then
        (GameAlreadyOver, ticTacToeStates)
      else
        match aiResponse with
        | AIRejected => (AIServiceUnavailable, ticTacToeStates)
        | AIResolved true (Some move) =>
            let r := TicTacToeGame.makeMove game move in
            let ticTacToeStates' := <[gameId := r.2]> ticTacToeStates in
            if r.1 then (AIMoveOk move r.2, ticTacToeStates')
            else (AIInvalidMove, ticTacToeStates')
        | AIResolved _ _ => (AIFailedToGenerate, ticTacToeStates)
        end
  end.

End TicTacToeServer.

(** ** Vocabulary of the statements *)

Import ChessLogic.

(** The square at zero-based file [f] and rank [r] holds nothing: the board
    has no entry under its name, or an empty string. *)
Definition squareEmpty (board : Board) (f r : Z) : Prop :=
  truthy (board !! formatSquare f r) = false.

Definition strictlyBetween (a x b : Z) : Prop := a < x < b ∨ b < x < a.

(** [(f, r)] lies on the file or rank shared by [from] and [to], strictly
    between them. *)
Definition onRookPath (from to : Coords) (f r : Z) : Prop :=
  (f = file from ∧ f = file to ∧ strictlyBetween (rank from) r (rank to)) ∨
  (r = rank from ∧ r = rank to ∧ strictlyBetween (file from) f (file to)).

Definition exactlyOne (P Q : Prop) : Prop := (P ∧ ¬ Q) ∨ (¬ P ∧ Q).

Definition opposite (c : Color) : Color :=
  match c with white => black | black => white end.

(** A session with its [gameOver] field overwritten. *)
Definition withGameOver (flag : bool) (g : ChessGame.t) : ChessGame.t :=
  {| ChessGame.gameId := ChessGame.gameId g;
     ChessGame.board := ChessGame.board g;
     ChessGame.currentPlayer := ChessGame.currentPlayer g;
     ChessGame.moveHistory := ChessGame.moveHistory g;
     ChessGame.gameOver := flag;
     ChessGame.winner := ChessGame.winner g |}.

(** The kinds on a back rank, from file a to file h. *)
Definition conventionalBackRank : list PieceType :=
  [rook; knight; bishop; queen; king; bishop; knight; rook].

(** The colour a pawn moves for, from the [isWhite] flag of the dispatch. *)
Definition moverOf (isWhite : bool) : Color := if isWhite then white else black.

(** [(f, r)] lies on the diagonal through [from] and [to], strictly between
    them. *)
Definition onBishopPath (from to : Coords) (f r : Z) : Prop :=
  strictlyBetween (file from) f (file to) ∧
  strictlyBetween (rank from) r (rank to) ∧
  Z.abs (f - file from) = Z.abs (r - rank from).

(** The six kind names. *)
Definition sixKinds : list PieceType := [king; queen; rook; bishop; knight; pawn].

(** The number of squares that hold the string [piece]. *)
Definition countPiece (piece : jsstring) (board : Board) : nat :=
  size (filter (λ kv : jsstring * jsstring, kv.2 = piece) board).

(** The twelve strings that [pieceMap] knows. *)
Definition pieceGlyphs : list jsstring :=
  [ whiteKing; whiteQueen; whiteRook; whiteBishop; whiteKnight; whitePawn;
    blackKing; blackQueen; blackRook; blackBishop; blackKnight; blackPawn ].

(** Every entry of the board sits under the name of a square and is one of
    the twelve glyphs. *)
Definition wellFormedBoard (board : Board) : Prop :=
  map_Forall (λ (square piece : jsstring),
                isValidSquare square = true ∧ piece ∈ pieceGlyphs) board.

(** The 64 square names in the order [getValidMoves] scans them. *)
Definition allSquares : list jsstring :=
  seqZ 0 8 ≫= λ f : Z, seqZ 0 8 ≫= λ r : Z, [formatSquare f r].

(** A client's successive [makeMove] calls on one session, each given as
    [(fromSquare, toSquare, now)]; rejected calls leave the session as it is
    and the next call goes on from there. *)
Fixpoint playMoves (this : ChessGame.t) (calls : list (jsstring * jsstring * jsstring))
    : option ChessGame.t :=
  match calls with
  | [] => Some this
  | (fromSquare, toSquare, now) :: calls' =>
      ChessGame.makeMove this fromSquare toSquare now ≫= λ r : bool * ChessGame.t,
      playMoves r.2 calls'
  end.

(** What holds of every record of a reachable session's history, by its
    position. *)
Definition recordOk (i : nat) (record : ChessMove.t) : Prop :=
  ChessMove.player record = (if Nat.even i then white else black) ∧
  isValidSquare (ChessMove.from record) = true ∧
  isValidSquare (ChessMove.to record) = true ∧
  ChessMove.from record ≠ ChessMove.to record ∧
  ChessMove.piece record ∈ pieceGlyphs ∧
  getPieceColor (ChessMove.piece record) = Some (ChessMove.player record).

(** Player [p] holds the three cells of [pattern]. *)
Definition ownsLine (board : list (option TicTacToeGame.Player)) (p : TicTacToeGame.Player)
    (pattern : nat * nat * nat) : Prop :=
  board !! pattern.1.1 = Some (Some p) ∧
  board !! pattern.1.2 = Some (Some p) ∧
  board !! pattern.2 = Some (Some p).

(** The number of cells that are not [null]. *)
Definition occupiedCells (board : list (option TicTacToeGame.Player)) : nat :=
  length (filter (λ cell, is_Some cell) board).

Definition otherPlayer (p : TicTacToeGame.Player) : TicTacToeGame.Player :=
  match p with TicTacToeGame.X => TicTacToeGame.O | TicTacToeGame.O => TicTacToeGame.X end.

(** The client's view of a server session: the same fields without the id. *)
Definition stateOf (game : TicTacToeGame.t) : TicTacToeLogic.GameState :=
  {| TicTacToeLogic.board := TicTacToeGame.board game;
     TicTacToeLogic.currentPlayer := TicTacToeGame.currentPlayer game;
     TicTacToeLogic.winner := TicTacToeGame.winner game;
     TicTacToeLogic.isDraw := TicTacToeGame.isDraw game;
     TicTacToeLogic.isGameOver := TicTacToeGame.isGameOver game;
     TicTacToeLogic.moveCount := TicTacToeGame.moveCount game |}.

(** A counter small enough for [+ 1] to be exact on it. *)
Definition safeCounter (n : Z) : Prop := - 2 ^ 53 ≤ n < 2 ^ 53.

Definition statsSafe (stats : TicTacToeLogic.GameStats) : Prop :=
  safeCounter (TicTacToeLogic.xWins stats) ∧
  safeCounter (TicTacToeLogic.oWins stats) ∧
  safeCounter (TicTacToeLogic.draws stats) ∧
  safeCounter (TicTacToeLogic.totalGames stats).

(** The books balance: every counted game is a win or a draw. *)
Definition statsBalanced (stats : TicTacToeLogic.GameStats) : Prop :=
  TicTacToeLogic.totalGames stats =
  TicTacToeLogic.xWins stats + TicTacToeLogic.oWins stats + TicTacToeLogic.draws stats.

(** ** The path walk *)

Section PathWalk.

Variable board : Board.

(** A run that has exited keeps its result under any larger budget. *)
Lemma isPathClear_loop_more_fuel to fs rs (n m : nat) :
  ∀ cf cr b,
    isPathClear_loop n board to fs rs cf cr = Some b →
    (n ≤ m)%nat →
    isPathClear_loop m board to fs rs cf cr = Some b.
Proof.
  revert m. induction n as [|n IH]; intros m cf cr b Hrun Hle; [discriminate|].
  destruct m as [|m]; [lia|]. simpl in *.
  destruct (bool_decide (cf ≠ file to) || bool_decide (cr ≠ rank to)); [|done].
  destruct (truthy _); [done|]. apply IH; [done|lia].
Qed.

(** A walk of [d] unit steps that ends on [to] exits within [d + 1] tests,
    with true exactly when the [d] squares it stands on before [to] are
    empty. *)
Lemma isPathClear_loop_walk to fs rs :
  (fs ≠ 0 ∨ rs ≠ 0) →
  ∀ (d fuel : nat) cf cr,
    file to = cf + Z.of_nat d * fs →
    rank to = cr + Z.of_nat d * rs →
    (d < fuel)%nat →
    ∃ b, isPathClear_loop fuel board to fs rs cf cr = Some b ∧
         (b = true ↔ ∀ k, 0 ≤ k < Z.of_nat d → squareEmpty board (cf + k * fs) (cr + k * rs)).
Proof.
  intros Hstep. induction d as [|d IH]; intros fuel cf cr Hf Hr Hfuel.
  - destruct fuel as [|fuel]; [lia|]. simpl.
    rewrite !bool_decide_eq_false_2 by lia. simpl.
    exists true. split; [done|]. split; [intros _ k Hk; lia|done].
  - destruct fuel as [|fuel]; [lia|]. simpl.
    assert (cf ≠ file to ∨ cr ≠ rank to) as Hne by nia.
    assert (bool_decide (cf ≠ file to) || bool_decide (cr ≠ rank to) = true) as ->.
    { apply orb_true_iff. destruct Hne; [left|right]; by apply bool_decide_eq_true_2. }
    destruct (truthy (board !! formatSquare cf cr)) eqn:Hsq.
    + exists false. split; [done|]. split; [done|]. intros Hall.
      specialize (Hall 0 ltac:(lia)). unfold squareEmpty in Hall.
      rewrite !Z.mul_0_l, !Z.add_0_r in Hall. congruence.
    + destruct (IH fuel (cf + fs) (cr + rs)) as (b & Hrun & Hb); [lia..|].
      exists b. split; [done|]. rewrite Hb. split.
      * intros Hall k Hk. destruct (decide (k = 0)) as [->|Hk0].
        { unfold squareEmpty. by rewrite !Z.mul_0_l, !Z.add_0_r. }
        specialize (Hall (k - 1) ltac:(lia)).
        replace (cf + fs + (k - 1) * fs) with (cf + k * fs) in Hall by lia.
        by replace (cr + rs + (k - 1) * rs) with (cr + k * rs) in Hall by lia.
      * intros Hall k Hk. specialize (Hall (k + 1) ltac:(lia)).
        replace (cf + (k + 1) * fs) with (cf + fs + k * fs) in Hall by lia.
        by replace (cr + (k + 1) * rs) with (cr + rs + k * rs) in Hall by lia.
Qed.

(** Between squares that share a file, a rank or a diagonal, [isPathClear]
    returns, with true exactly when the squares strictly between are empty. *)
Lemma isPathClear_returns from to :
  let df := file to - file from in
  let dr := rank to - rank from in
  (df = 0 ∨ dr = 0 ∨ Z.abs df = Z.abs dr) →
  ∃ b, isPathClear board from to = Some b ∧
       (b = true ↔
        ∀ k, 0 < k < Z.max (Z.abs df) (Z.abs dr) →
             squareEmpty board (file from + k * Z.sgn df) (rank from + k * Z.sgn dr)).
Proof.
  intros df dr Haligned. unfold isPathClear, pathFuel. fold df dr.
  set (n := Z.max (Z.abs df) (Z.abs dr)).
  assert ((if bool_decide (file to > file from) then 1
           else if bool_decide (file to < file from) then -1 else 0) = Z.sgn df) as ->.
  { repeat case_bool_decide; lia. }
  assert ((if bool_decide (rank to > rank from) then 1
           else if bool_decide (rank to < rank from) then -1 else 0) = Z.sgn dr) as ->.
  { repeat case_bool_decide; lia. }
  assert (df = n * Z.sgn df ∧ dr = n * Z.sgn dr) as [Hdf Hdr] by lia.
  destruct (decide (n = 0)) as [Hn0|Hn0].
  - exists true. split.
    + simpl. rewrite !bool_decide_eq_false_2; [done|lia..].
    + split; [intros _ k Hk; lia|done].
  - destruct (isPathClear_loop_walk to (Z.sgn df) (Z.sgn dr) ltac:(lia)
                (Z.to_nat (n - 1)) (S (Z.to_nat n))
                (file from + Z.sgn df) (rank from + Z.sgn dr))
      as (b & Hrun & Hb); [nia | nia | lia |].
    exists b. split; [done|]. rewrite Hb. split.
    + intros Hall k Hk. specialize (Hall (k - 1) ltac:(lia)).
      replace (file from + Z.sgn df + (k - 1) * Z.sgn df) with (file from + k * Z.sgn df) in Hall by lia.
      by replace (rank from + Z.sgn dr + (k - 1) * Z.sgn dr) with (rank from + k * Z.sgn dr) in Hall by lia.
    + intros Hall k Hk. specialize (Hall (k + 1) ltac:(lia)).
      replace (file from + (k + 1) * Z.sgn df) with (file from + Z.sgn df + k * Z.sgn df) in Hall by lia.
      by replace (rank from + (k + 1) * Z.sgn dr) with (rank from + Z.sgn dr + k * Z.sgn dr) in Hall by lia.
Qed.

Lemma isPathClear_null_move c : isPathClear board c c = Some true.
Proof.
  unfold isPathClear, pathFuel. simpl.
  rewrite !(bool_decide_eq_false_2 (_ > _)), !(bool_decide_eq_false_2 (_ < _)) by lia.
  rewrite !Z.add_0_r. by rewrite !bool_decide_eq_false_2 by (intros H; by apply H).
Qed.

(** The guard of the rook check, read as a proposition. *)
Lemma rook_guard from to :
  bool_decide (file from ≠ file to) && bool_decide (rank from ≠ rank to) = false ↔
  file from = file to ∨ rank from = rank to.
Proof.
  rewrite andb_false_iff, !bool_decide_eq_false. split.
  - intros [H|H]; [left|right]; by apply dec_stable.
  - intros [H|H]; [left|right]; by intros Hne.
Qed.

Lemma isValidRookMove_total from to :
  ∃ b, isValidRookMove board from to = Some b.
Proof.
  unfold isValidRookMove.
  destruct (bool_decide (file from ≠ file to) && bool_decide (rank from ≠ rank to))
    eqn:Hguard; [by eexists|].
  apply rook_guard in Hguard.
  destruct (isPathClear_returns from to) as (b & Hrun & _); [lia|]. eauto.
Qed.

Lemma isValidBishopMove_total from to :
  ∃ b, isValidBishopMove board from to = Some b.
Proof.
  unfold isValidBishopMove. case_bool_decide as Hd; [by eexists|].
  destruct (isPathClear_returns from to) as (b & Hrun & _); [lia|]. eauto.
Qed.

Lemma isValidQueenMove_total from to :
  ∃ b, isValidQueenMove board from to = Some b.
Proof.
  unfold isValidQueenMove.
  destruct (isValidRookMove_total from to) as (r & ->). simpl.
  destruct r; [by eexists|]. apply isValidBishopMove_total.
Qed.

End PathWalk.

(** ** Squares and their coordinates *)

Lemma includes_files c :
  includes (js "abcdefgh") [c] = true ↔ (97 ≤ c ≤ 104)%N.
Proof.
  cbn. repeat case_bool_decide; subst; simpl; split; (done || lia).
Qed.

Lemma includes_ranks c :
  includes (js "12345678") [c] = true ↔ (49 ≤ c ≤ 56)%N.
Proof.
  cbn. repeat case_bool_decide; subst; simpl; split; (done || lia).
Qed.

Lemma isValidSquare_inv square :
  isValidSquare square = true →
  ∃ c0 c1, square = [c0; c1] ∧ (97 ≤ c0 ≤ 104)%N ∧ (49 ≤ c1 ≤ 56)%N.
Proof.
  destruct square as [|c0 [|c1 [|? ?]]]; try done. simpl.
  intros [H0 H1]%andb_true_iff. exists c0, c1.
  by rewrite <- includes_files, <- includes_ranks.
Qed.

Lemma getSquareCoordinates_valid square :
  isValidSquare square = true →
  ∃ c, getSquareCoordinates square = Some c ∧ 0 ≤ file c ≤ 7 ∧ 0 ≤ rank c ≤ 7.
Proof.
  intros (c0 & c1 & -> & H0 & H1)%isValidSquare_inv.
  unfold getSquareCoordinates, parseInt1.
  rewrite !bool_decide_eq_true_2 by lia. simpl.
  eexists. split; [done|]. simpl. lia.
Qed.

(** ** The validator always returns *)

Lemma isValidPieceMove_returns (board : Board) from to piece :
  isValidSquare from = true →
  isValidSquare to = true →
  ∃ b, isValidPieceMove board from to piece = Some b.
Proof.
  intros (cf & Hcf & _)%getSquareCoordinates_valid (ct & Hct & _)%getSquareCoordinates_valid.
  unfold isValidPieceMove. rewrite Hcf, Hct. simpl.
  destruct (getPieceType piece); eauto using
    isValidRookMove_total, isValidBishopMove_total, isValidQueenMove_total.
Qed.

Lemma isValidMove_returns (board : Board) from to currentPlayer :
  ∃ b, isValidMove board from to currentPlayer = Some b.
Proof.
  unfold isValidMove.
  destruct (isValidSquare from) eqn:Hfrom; [|by eexists].
  destruct (isValidSquare to) eqn:Hto; [|by eexists]. simpl.
  destruct (board !! from) as [[|c piece]|]; [by eexists| |by eexists].
  case_bool_decide; [by eexists|].
  destruct (board !! to) as [[|d target]|];
    try case_bool_decide; eauto using isValidPieceMove_returns.
Qed.

Lemma makeMove_returns this fromSquare toSquare now :
  ∃ ok this', ChessGame.makeMove this fromSquare toSquare now = Some (ok, this').
Proof.
  unfold ChessGame.makeMove.
  destruct (negb (isValidSquare fromSquare) || negb (isValidSquare toSquare)); [by eauto|].
  destruct (ChessGame.board this !! fromSquare) as [[|c piece]|]; [by eauto| |by eauto].
  destruct (isValidMove_returns (ChessGame.board this) fromSquare toSquare
              (ChessGame.currentPlayer this)) as (valid & ->). simpl.
  destruct valid; simpl; eauto.
Qed.

(** A rejected [makeMove] hands back the object it was given. *)
Lemma makeMove_false this fromSquare toSquare now this' :
  ChessGame.makeMove this fromSquare toSquare now = Some (false, this') → this' = this.
Proof.
  unfold ChessGame.makeMove.
  destruct (negb (isValidSquare fromSquare) || negb (isValidSquare toSquare)); [congruence|].
  destruct (ChessGame.board this !! fromSquare) as [[|c piece]|]; [congruence| |congruence].
  destruct (isValidMove _ _ _ _) as [[|]|]; simpl; congruence.
Qed.

(** The null move never passes the full check. *)
Lemma isValidMove_null (board : Board) square currentPlayer :
  isValidMove board square square currentPlayer = Some false.
Proof.
  unfold isValidMove.
  destruct (isValidSquare square); [|done]. simpl.
  destruct (board !! square) as [[|c piece]|]; [done| |done].
  case_bool_decide as Hcolor; [done|].
  by rewrite bool_decide_eq_true_2.
Qed.

(** What an accepted [makeMove] did. *)
Lemma makeMove_true this fromSquare toSquare now this' :
  ChessGame.makeMove this fromSquare toSquare now = Some (true, this') →
  ∃ piece,
    ChessGame.board this !! fromSquare = Some piece ∧
    piece ≠ [] ∧
    isValidSquare fromSquare = true ∧
    isValidSquare toSquare = true ∧
    isValidMove (ChessGame.board this) fromSquare toSquare (ChessGame.currentPlayer this)
      = Some true ∧
    fromSquare ≠ toSquare ∧
    this' =
      {| ChessGame.gameId := ChessGame.gameId this;
         ChessGame.board := delete fromSquare (<[toSquare := piece]> (ChessGame.board this));
         ChessGame.currentPlayer := opposite (ChessGame.currentPlayer this);
         ChessGame.moveHistory :=
           ChessGame.moveHistory this ++
           [ {| ChessMove.from := fromSquare; ChessMove.to := toSquare;
                ChessMove.piece := piece;
                ChessMove.player := ChessGame.currentPlayer this;
                ChessMove.timestamp := now |} ];
         ChessGame.gameOver := ChessGame.gameOver this;
         ChessGame.winner := ChessGame.winner this |}.
Proof.
  unfold ChessGame.makeMove.
  destruct (isValidSquare fromSquare) eqn:Hfrom; [|done].
  destruct (isValidSquare toSquare) eqn:Hto; [|done]. simpl.
  destruct (ChessGame.board this !! fromSquare) as [[|c piece]|] eqn:Hpiece; [done| |done].
  destruct (isValidMove _ _ _ _) as [[|]|] eqn:Hvalid; simpl; [|done..].
  intros [= <-]. exists (c :: piece). repeat split; try done.
  - intros ->. by rewrite isValidMove_null in Hvalid.
  - f_equal. by destruct (ChessGame.currentPlayer this).
Qed.

(** Accepted or not, [makeMove] leaves the id, the flag and the winner alone. *)
Lemma makeMove_frame this fromSquare toSquare now ok this' :
  ChessGame.makeMove this fromSquare toSquare now = Some (ok, this') →
  ChessGame.gameId this' = ChessGame.gameId this ∧
  ChessGame.gameOver this' = ChessGame.gameOver this ∧
  ChessGame.winner this' = ChessGame.winner this.
Proof.
  intros Hrun. destruct ok.
  - by apply makeMove_true in Hrun as (piece & _ & _ & _ & _ & _ & _ & ->).
  - by apply makeMove_false in Hrun as ->.
Qed.

(** An accepted [makeMove] hands the turn to the other colour. *)
Lemma makeMove_true_turn this fromSquare toSquare now this' :
  ChessGame.makeMove this fromSquare toSquare now = Some (true, this') →
  ChessGame.currentPlayer this' = opposite (ChessGame.currentPlayer this).
Proof. by intros (piece & _ & _ & _ & _ & _ & _ & ->)%makeMove_true. Qed.

(** ** Coordinates *)

(** Case analysis on an integer known to lie in a range of eight, or of four. *)
Ltac eight_cases x lo :=
  let H := fresh "H" in
  assert (x = lo ∨ x = lo + 1 ∨ x = lo + 2 ∨ x = lo + 3 ∨
          x = lo + 4 ∨ x = lo + 5 ∨ x = lo + 6 ∨ x = lo + 7) as H by lia;
  repeat (destruct H as [->|H]); try subst x.

Ltac four_cases x lo :=
  let H := fresh "H" in
  assert (x = lo ∨ x = lo + 1 ∨ x = lo + 2 ∨ x = lo + 3) as H by lia;
  repeat (destruct H as [->|H]); try subst x.

(** C8: formatting the square at file [f] and rank [r], both in [0,7], gives a
    two-character name that [isValidSquare] accepts and that
    [getSquareCoordinates] parses back to [(f, r)]. *)
Theorem format_parse_roundtrip (f r : Z) :
  0 ≤ f ≤ 7 →
  0 ≤ r ≤ 7 →
  isValidSquare (formatSquare f r) = true ∧
  getSquareCoordinates (formatSquare f r) = Some {| file := f; rank := r |}.
Proof.
  intros Hf Hr. eight_cases f 0; eight_cases r 0; by vm_compute.
Qed.

Lemma format_parse_roundtrip_e2 :
  (0 ≤ 4 ≤ 7 ∧ 0 ≤ 1 ≤ 7) ∧
  formatSquare 4 1 = js "e2" ∧
  isValidSquare (formatSquare 4 1) = true ∧
  getSquareCoordinates (formatSquare 4 1) = Some {| file := 4; rank := 1 |}.
Proof.
  split; [lia|]. split; [reflexivity|].
  apply (format_parse_roundtrip 4 1); lia.
Defined.

(** ** The starting position *)

(** C9: [initBoard] holds exactly 32 pieces, sixteen of each colour. On
    every file [f] the white back-rank piece stands on rank 1 and a white pawn
    on rank 2, a black pawn on rank 7 and the black back-rank piece on rank 8,
    the back ranks in the order rook, knight, bishop, queen, king, bishop,
    knight, rook; the squares of ranks 3 to 6 are empty. *)
Theorem initBoard_standard (f : Z) :
  0 ≤ f ≤ 7 →
  size ChessGame.initBoard = 32%nat ∧
  size (filter (λ kv, getPieceColor kv.2 = Some white) ChessGame.initBoard) = 16%nat ∧
  size (filter (λ kv, getPieceColor kv.2 = Some black) ChessGame.initBoard) = 16%nat ∧
  (∃ p, ChessGame.initBoard !! formatSquare f 0 = Some p ∧
        getPieceColor p = Some white ∧
        conventionalBackRank !! Z.to_nat f = Some (getPieceType p)) ∧
  (∃ p, ChessGame.initBoard !! formatSquare f 1 = Some p ∧
        getPieceColor p = Some white ∧ getPieceType p = pawn) ∧
  (∃ p, ChessGame.initBoard !! formatSquare f 6 = Some p ∧
        getPieceColor p = Some black ∧ getPieceType p = pawn) ∧
  (∃ p, ChessGame.initBoard !! formatSquare f 7 = Some p ∧
        getPieceColor p = Some black ∧
        conventionalBackRank !! Z.to_nat f = Some (getPieceType p)) ∧
  (∀ r, 2 ≤ r ≤ 5 → ChessGame.initBoard !! formatSquare f r = None).
Proof.
  intros Hf.
  split; [by vm_compute|]. split; [by vm_compute|]. split; [by vm_compute|].
  eight_cases f 0;
    (split; [eexists; by vm_compute|]); (split; [eexists; by vm_compute|]);
    (split; [eexists; by vm_compute|]); (split; [eexists; by vm_compute|]);
    intros r Hr; four_cases r 2; by vm_compute.
Qed.

Lemma initBoard_standard_e_file :
  0 ≤ 4 ≤ 7 ∧
  ChessGame.initBoard !! formatSquare 4 0 = Some whiteKing ∧
  ∃ p, ChessGame.initBoard !! formatSquare 4 7 = Some p ∧
       getPieceColor p = Some black ∧
       conventionalBackRank !! Z.to_nat 4 = Some (getPieceType p).
Proof.
  split; [lia|]. split; [reflexivity|].
  apply (initBoard_standard 4). lia.
Defined.

(** ** Movement rules *)

(** C2, as the code has it: the rook check returns, and returns true exactly
    when [from] and [to] share a file or a rank (one or both, so the null
    move passes) and every square strictly between them is empty. *)
Theorem rook_geometry (board : Board) (from to : Coords) :
  ∃ b, isValidRookMove board from to = Some b ∧
       (b = true ↔
        (file from = file to ∨ rank from = rank to) ∧
        ∀ f r, onRookPath from to f r → squareEmpty board f r).
Proof.
  unfold isValidRookMove.
  destruct (bool_decide (file from ≠ file to) && bool_decide (rank from ≠ rank to))
    eqn:Hguard.
  - exists false. split; [done|]. split; [done|]. intros [Hline _].
    apply rook_guard in Hline. congruence.
  - apply rook_guard in Hguard as Hline.
    destruct (isPathClear_returns board from to) as (b & Hrun & Hb); [lia|].
    exists b. split; [done|]. rewrite Hb. clear Hb Hrun Hguard. split.
    + intros Hall. split; [done|]. intros f r Hon.
      unfold onRookPath, strictlyBetween in Hon.
      destruct Hon as [(-> & Hft & Hbetween)|(-> & Hrt & Hbetween)].
      * specialize (Hall (Z.abs (r - rank from)) ltac:(lia)).
        replace (file from + Z.abs (r - rank from) * Z.sgn (file to - file from))
          with (file from) in Hall by nia.
        by replace (rank from + Z.abs (r - rank from) * Z.sgn (rank to - rank from))
          with r in Hall by nia.
      * specialize (Hall (Z.abs (f - file from)) ltac:(lia)).
        replace (rank from + Z.abs (f - file from) * Z.sgn (rank to - rank from))
          with (rank from) in Hall by nia.
        by replace (file from + Z.abs (f - file from) * Z.sgn (file to - file from))
          with f in Hall by nia.
    + intros [_ Hall] k Hk. apply Hall. unfold onRookPath, strictlyBetween.
      destruct Hline as [Hfile|Hrank]; [left|right]; nia.
Qed.

(** C2 as stated fails on the null move: the rook check accepts [d4 -> d4]
    on the empty board, where file and rank both agree. *)
Lemma rook_accepts_null_move :
  let d4 := {| file := 3; rank := 3 |} in
  isValidRookMove ∅ d4 d4 = Some true ∧
  (∀ f r, onRookPath d4 d4 f r → squareEmpty ∅ f r) ∧
  ¬ exactlyOne (file d4 = file d4) (rank d4 = rank d4).
Proof.
  split; [reflexivity|]. split.
  - intros f r _. reflexivity.
  - intros [[_ H]|[H _]]; by apply H.
Qed.

(** The pawn check on any dictionary of strings: it accepts a single forward
    step onto an empty square, a double forward step from the start rank over
    two empty squares, and a diagonal step onto a non-empty square whose
    content is not of the pawn's own colour; nothing else. *)
Theorem pawn_geometry (board : Board) (from to : Coords) (isWhite : bool) :
  let direction := if isWhite then 1 else -1 in
  let startRank := if isWhite then 1 else 6 in
  let df := file to - file from in
  let dr := rank to - rank from in
  isValidPawnMove board from to isWhite = true ↔
    (df = 0 ∧ dr = direction ∧ squareEmpty board (file to) (rank to)) ∨
    (df = 0 ∧ dr = 2 * direction ∧ rank from = startRank ∧
     squareEmpty board (file from) (rank from + direction) ∧
     squareEmpty board (file to) (rank to)) ∨
    (Z.abs df = 1 ∧ dr = direction ∧
     ∃ target, board !! formatSquare (file to) (rank to) = Some target ∧
               target ≠ [] ∧
               getPieceColor target ≠ Some (moverOf isWhite)).
Proof.
  intros direction startRank df dr. unfold isValidPawnMove, squareEmpty.
  fold direction startRank df dr.
  assert (direction = 1 ∨ direction = -1) as Hdir by (destruct isWhite; lia).
  case_bool_decide as Hfile.
  - assert (file to = file from) as Hsame by lia.
    case_bool_decide as Hone.
    + rewrite negb_true_iff. split; [intros ?; left; split_and!; [lia|done..]|].
      intros [(_ & _ & ?)|[(_ & ? & _)|(? & _)]]; [done|lia..].
    + destruct (bool_decide (dr = 2 * direction) && bool_decide (rank from = startRank))
        eqn:Htwo.
      * apply andb_true_iff in Htwo as [Hdr Hstart].
        apply bool_decide_eq_true in Hdr, Hstart.
        rewrite andb_true_iff, !negb_true_iff, <- Hsame. split.
        { intros [? ?]. right; left. split_and!; (done || lia). }
        intros [(_ & ? & _)|[(_ & _ & _ & ? & ?)|(? & _)]]; [done|done|lia].
      * apply andb_false_iff in Htwo.
        split; [done|].
        intros [(_ & ? & _)|[(_ & ? & ? & _)|(? & _)]]; [done| |lia].
        destruct Htwo as [Hno|Hno]; by apply bool_decide_eq_false in Hno.
  - destruct (bool_decide (Z.abs df = 1) && bool_decide (dr = direction)) eqn:Hdiag.
    + apply andb_true_iff in Hdiag as [Hdf Hdr].
      apply bool_decide_eq_true in Hdf, Hdr.
      destruct (board !! formatSquare (file to) (rank to)) as [[|c target]|] eqn:Hto.
      * split; [done|].
        intros [(? & _)|[(? & _)|(_ & _ & t & [= <-] & ? & _)]]; [lia|lia|done].
      * rewrite bool_decide_eq_true. split.
        { intros ?. right; right. split_and!; [done..|]. by exists (c :: target). }
        intros [(? & _)|[(? & _)|(_ & _ & t & [= <-] & _ & ?)]]; [lia|lia|done].
      * split; [done|].
        intros [(? & _)|[(? & _)|(_ & _ & t & ? & _)]]; [lia|lia|done].
    + apply andb_false_iff in Hdiag. split; [done|].
      intros [(? & _)|[(? & _)|(? & ? & _)]]; [lia|lia|].
      destruct Hdiag as [Hno|Hno]; by apply bool_decide_eq_false in Hno.
Qed.

(** A dictionary that holds a string that is no piece is not a board of
    the game; on such a one, a white pawn on a2 may step diagonally onto b3
    holding ["x"], which has no colour. *)
Lemma pawn_captures_uncoloured_piece :
  let board : Board := {[ js "b3" := js "x" ]} in
  let a2 := {| file := 0; rank := 1 |} in
  let b3 := {| file := 1; rank := 2 |} in
  formatSquare (file b3) (rank b3) = js "b3" ∧
  isValidPawnMove board a2 b3 true = true ∧
  ¬ ∃ target, board !! formatSquare (file b3) (rank b3) = Some target ∧
              getPieceColor target = Some black.
Proof.
  split; [reflexivity|]. split; [reflexivity|].
  intros (target & Hlookup & Hcolor).
  vm_compute in Hlookup. injection Hlookup as <-. vm_compute in Hcolor. discriminate.
Qed.

(** On a destination whose content has a colour, "not the pawn's own colour"
    is "the opposite colour". *)
Lemma not_own_colour_is_opposite target mover :
  getPieceColor target ≠ None →
  getPieceColor target ≠ Some mover ↔ getPieceColor target = Some (opposite mover).
Proof.
  destruct (getPieceColor target) as [[|]|], mover; simpl; intros ?; split; congruence.
Qed.

(** C10: the full legality check rejects the null move on every board, for
    every square and mover, although the rook and queen geometry checks on
    their own accept [from = to]. *)
Theorem null_move_rejected (board : Board) (square : jsstring) (mover : Color) (c : Coords) :
  isValidMove board square square mover = Some false ∧
  isValidRookMove board c c = Some true ∧
  isValidQueenMove board c c = Some true.
Proof.
  assert (isValidRookMove board c c = Some true) as Hrook.
  { unfold isValidRookMove. rewrite (proj2 (rook_guard c c)) by by left.
    apply isPathClear_null_move. }
  split; [apply isValidMove_null|]. split; [done|].
  unfold isValidQueenMove. by rewrite Hrook.
Qed.

(** ** The session *)

Lemma isValidMove_true_inv (board : Board) from to currentPlayer :
  isValidMove board from to currentPlayer = Some true →
  isValidSquare from = true ∧ isValidSquare to = true ∧
  ∃ c piece, board !! from = Some (c :: piece) ∧
             getPieceColor (c :: piece) = Some currentPlayer.
Proof.
  unfold isValidMove.
  destruct (isValidSquare from); [|done].
  destruct (isValidSquare to); [|done]. simpl.
  destruct (board !! from) as [[|c piece]|]; [done| |done].
  case_bool_decide as Hcolor; [done|]. intros _.
  split_and!; [done..|]. by exists c, piece.
Qed.

Lemma makeMove_withGameOver flag this fromSquare toSquare now :
  ChessGame.makeMove (withGameOver flag this) fromSquare toSquare now =
  (λ r : bool * ChessGame.t, (r.1, withGameOver flag r.2)) <$>
    ChessGame.makeMove this fromSquare toSquare now.
Proof.
  unfold ChessGame.makeMove. simpl.
  destruct (negb (isValidSquare fromSquare) || negb (isValidSquare toSquare)); [done|].
  destruct (ChessGame.board this !! fromSquare) as [[|c piece]|]; [done| |done].
  destruct (isValidMove _ _ _ _) as [[|]|]; done.
Qed.

(** C1, as the code has it: [makeMove] neither reads nor writes [gameOver]
    (nor [winner]). Every call returns; the flag and the winner come out as
    they went in; and with the flag overwritten by any value, the same call
    gives the same answer and the same board, turn and history. No call is
    refused because the session has terminated. *)
Theorem makeMove_ignores_gameOver (this : ChessGame.t) (fromSquare toSquare now : jsstring) :
  ∃ ok this',
    ChessGame.makeMove this fromSquare toSquare now = Some (ok, this') ∧
    ChessGame.gameOver this' = ChessGame.gameOver this ∧
    ChessGame.winner this' = ChessGame.winner this ∧
    ∀ flag,
      ChessGame.makeMove (withGameOver flag this) fromSquare toSquare now =
      Some (ok, withGameOver flag this').
Proof.
  destruct (makeMove_returns this fromSquare toSquare now) as (ok & this' & Hrun).
  exists ok, this'. split; [done|].
  destruct (makeMove_frame _ _ _ _ _ _ Hrun) as (_ & ? & ?).
  split_and!; [done..|]. intros flag.
  by rewrite makeMove_withGameOver, Hrun.
Qed.

(** C1 as stated fails: on a session whose [gameOver] is set, [makeMove]
    still plays e2-e4, and so does the move route. *)
Lemma terminated_session_still_moves :
  let game := withGameOver true (ChessGame.new (js "1")) in
  ChessGame.gameOver game = true ∧
  ∃ game',
    ChessGame.makeMove game (js "e2") (js "e4") (js "t") = Some (true, game') ∧
    ChessGame.board game' !! js "e4" = Some whitePawn ∧
    ChessGame.board game' !! js "e2" = None ∧
    ChessGame.currentPlayer game' = black ∧
    length (ChessGame.moveHistory game') = 1%nat ∧
    Server.postMove {[ js "1" := game ]} (js "1") (js "e2") (js "e4") (js "t") =
      Some (Server.MoveOk (ChessGame.getGameState game'), {[ js "1" := game' ]}).
Proof.
  split; [reflexivity|]. eexists. split; [by vm_compute|].
  split; [by vm_compute|]. split; [by vm_compute|]. split; [reflexivity|].
  split; [reflexivity|]. by vm_compute.
Qed.

(** C3: a rejected [makeMove], whatever check rejected it, leaves the board,
    the turn and the history (indeed the whole session) as they were. *)
Theorem rejected_move_leaves_session_unchanged
    (this : ChessGame.t) (fromSquare toSquare now : jsstring) (this' : ChessGame.t) :
  ChessGame.makeMove this fromSquare toSquare now = Some (false, this') →
  ChessGame.board this' = ChessGame.board this ∧
  ChessGame.currentPlayer this' = ChessGame.currentPlayer this ∧
  ChessGame.moveHistory this' = ChessGame.moveHistory this ∧
  this' = this.
Proof. by intros ->%makeMove_false. Qed.

(** White's pawn leap e2-e5 on a fresh session is rejected and changes
    nothing. *)
Lemma rejected_move_e2_e5 :
  let game := ChessGame.new (js "1") in
  ChessGame.makeMove game (js "e2") (js "e5") (js "t") = Some (false, game) ∧
  ChessGame.board game = ChessGame.board game ∧
  ChessGame.currentPlayer game = ChessGame.currentPlayer game ∧
  ChessGame.moveHistory game = ChessGame.moveHistory game ∧
  game = game.
Proof.
  split; [by vm_compute|].
  apply (rejected_move_leaves_session_unchanged
           (ChessGame.new (js "1")) (js "e2") (js "e5") (js "t")).
  by vm_compute.
Defined.

(** The routes answer a rejected attempt without changing the registry. *)
Lemma postMove_rejected gameStates gameId from to now response gameStates' :
  Server.postMove gameStates gameId from to now = Some (response, gameStates') →
  (∀ gameState, response ≠ Server.MoveOk gameState) →
  gameStates' = gameStates.
Proof.
  unfold Server.postMove. intros Hrun Hrejected.
  destruct (gameStates !! gameId) as [game|] eqn:Hgame; [|congruence].
  case_bool_decide; [congruence|].
  destruct (makeMove_returns game from to now) as (ok & game' & Hmove).
  rewrite Hmove in Hrun. simpl in Hrun. destruct ok; simpl in Hrun.
  - injection Hrun as <- <-. by destruct (Hrejected (ChessGame.getGameState game')).
  - apply makeMove_false in Hmove as ->. injection Hrun as <- <-. by apply insert_id.
Qed.

Lemma postAiMove_rejected gameStates gameId aiResponse now response gameStates' :
  Server.postAiMove gameStates gameId aiResponse now = Some (response, gameStates') →
  (∀ aiMove gameState, response ≠ Server.AIMoveOk aiMove gameState) →
  gameStates' = gameStates.
Proof.
  unfold Server.postAiMove. intros Hrun Hrejected.
  destruct (gameStates !! gameId) as [game|] eqn:Hgame; [|congruence].
  case_bool_decide; [congruence|].
  destruct aiResponse as [|[|] [move|]]; try congruence.
  destruct (makeMove_returns game move.1 move.2 now) as (ok & game' & Hmove).
  rewrite Hmove in Hrun. simpl in Hrun. destruct ok; simpl in Hrun.
  - injection Hrun as <- <-. by destruct (Hrejected move (ChessGame.getGameState game')).
  - apply makeMove_false in Hmove as ->. injection Hrun as <- <-. by apply insert_id.
Qed.

(** C4: a move that passes validation is carried out. [makeMove] returns
    true; the piece that stood on [fromSquare] now stands on [toSquare],
    whatever stood there before; [fromSquare] has no entry; no other square
    changed; the history grew by the one record of this move; and the turn
    went to the other colour. *)
Theorem accepted_move_effects (this : ChessGame.t) (fromSquare toSquare now : jsstring) :
  isValidMove (ChessGame.board this) fromSquare toSquare (ChessGame.currentPlayer this)
    = Some true →
  ∃ piece this',
    ChessGame.board this !! fromSquare = Some piece ∧
    ChessGame.makeMove this fromSquare toSquare now = Some (true, this') ∧
    ChessGame.board this' !! toSquare = Some piece ∧
    ChessGame.board this' !! fromSquare = None ∧
    (∀ square, square ≠ fromSquare → square ≠ toSquare →
               ChessGame.board this' !! square = ChessGame.board this !! square) ∧
    ChessGame.moveHistory this' =
      ChessGame.moveHistory this ++
      [ {| ChessMove.from := fromSquare; ChessMove.to := toSquare;
           ChessMove.piece := piece;
           ChessMove.player := ChessGame.currentPlayer this;
           ChessMove.timestamp := now |} ] ∧
    ChessGame.currentPlayer this' = opposite (ChessGame.currentPlayer this).
Proof.
  intros Hvalid.
  destruct (isValidMove_true_inv _ _ _ _ Hvalid) as (Hfrom & Hto & c & piece & Hpiece & _).
  destruct (makeMove_returns this fromSquare toSquare now) as (ok & this' & Hrun).
  assert (ok = true) as ->.
  { revert Hrun. unfold ChessGame.makeMove.
    rewrite Hfrom, Hto, Hpiece, Hvalid. simpl. congruence. }
  exists (c :: piece), this'.
  destruct (makeMove_true _ _ _ _ _ Hrun) as (piece' & Hpiece' & _ & _ & _ & _ & Hne & ->).
  assert (piece' = c :: piece) as -> by congruence. simpl.
  split_and!; try done.
  - rewrite lookup_delete_ne by done. apply lookup_insert_eq.
  - apply lookup_delete_eq.
  - intros square ? ?. rewrite lookup_delete_ne by done. by rewrite lookup_insert_ne.
Qed.

(** White opens e2-e4 on a fresh session. *)
Lemma accepted_move_e2_e4 :
  let game := ChessGame.new (js "1") in
  isValidMove (ChessGame.board game) (js "e2") (js "e4") (ChessGame.currentPlayer game)
    = Some true ∧
  ∃ piece game',
    ChessGame.board game !! js "e2" = Some piece ∧
    ChessGame.makeMove game (js "e2") (js "e4") (js "t") = Some (true, game') ∧
    ChessGame.board game' !! js "e4" = Some piece ∧
    ChessGame.board game' !! js "e2" = None ∧
    (∀ square, square ≠ js "e2" → square ≠ js "e4" →
               ChessGame.board game' !! square = ChessGame.board game !! square) ∧
    ChessGame.moveHistory game' =
      ChessGame.moveHistory game ++
      [ {| ChessMove.from := js "e2"; ChessMove.to := js "e4";
           ChessMove.piece := piece;
           ChessMove.player := ChessGame.currentPlayer game;
           ChessMove.timestamp := js "t" |} ] ∧
    ChessGame.currentPlayer game' = opposite (ChessGame.currentPlayer game).
Proof.
  split; [by vm_compute|].
  apply (accepted_move_effects (ChessGame.new (js "1")) (js "e2") (js "e4") (js "t")).
  by vm_compute.
Defined.

(** C7: in every session reachable from a fresh one through [makeMove]
    calls, accepted or rejected, [gameOver] is false and [winner] is null. *)
Theorem reachable_never_terminated (this : ChessGame.t) :
  ChessGame.reachable this →
  ChessGame.gameOver this = false ∧ ChessGame.winner this = None.
Proof.
  induction 1 as [gameId|this fromSquare toSquare now ok this' _ [IHflag IHwinner] Hrun];
    [done|].
  apply makeMove_frame in Hrun as (_ & -> & ->). done.
Qed.

(** ** Turn order at the routes *)

Lemma postMove_not_white (gameStates : Server.Registry) gameId game from to now :
  gameStates !! gameId = Some game →
  ChessGame.currentPlayer game = black →
  Server.postMove gameStates gameId from to now = Some (Server.NotYourTurn, gameStates).
Proof.
  intros Hgame Hturn. unfold Server.postMove. rewrite Hgame, Hturn.
  by rewrite bool_decide_eq_true_2.
Qed.

Lemma postAiMove_not_black (gameStates : Server.Registry) gameId game aiResponse now :
  gameStates !! gameId = Some game →
  ChessGame.currentPlayer game = white →
  Server.postAiMove gameStates gameId aiResponse now = Some (Server.NotAITurn, gameStates).
Proof.
  intros Hgame Hturn. unfold Server.postAiMove. rewrite Hgame, Hturn.
  by rewrite bool_decide_eq_true_2.
Qed.

(** [makeMove] turns away every origin whose content is not of the colour to
    move. *)
Lemma makeMove_wrong_colour this fromSquare toSquare now piece :
  ChessGame.board this !! fromSquare = Some piece →
  getPieceColor piece ≠ Some (ChessGame.currentPlayer this) →
  ChessGame.makeMove this fromSquare toSquare now = Some (false, this).
Proof.
  intros Hpiece Hcolor. unfold ChessGame.makeMove, isValidMove. rewrite Hpiece.
  destruct (negb (isValidSquare fromSquare) || negb (isValidSquare toSquare)); [done|].
  destruct piece as [|c piece]; [done|]. simpl.
  by rewrite (bool_decide_eq_true_2 _ Hcolor).
Qed.

(** C6: once a side has moved, its next attempt, with no move of the other
    side in between, is turned away and changes nothing. After White's move
    the player route answers 'Not your turn'; after Black's the AI route
    answers 'Not AI turn', whatever the AI proposes; each leaves the registry
    as it was. Below the routes, [makeMove] returns false and keeps the
    session for every origin square that holds a piece of the side that just
    moved. *)
Theorem second_attempt_out_of_turn
    (gameStates : Server.Registry) (gameId : jsstring)
    (game : ChessGame.t) (from to now : jsstring) (game' : ChessGame.t) :
  ChessGame.makeMove game from to now = Some (true, game') →
  let gameStates' := <[gameId := game']> gameStates in
  (ChessGame.currentPlayer game = white →
   ∀ from' to' now',
     Server.postMove gameStates' gameId from' to' now' =
     Some (Server.NotYourTurn, gameStates')) ∧
  (ChessGame.currentPlayer game = black →
   ∀ aiResponse now',
     Server.postAiMove gameStates' gameId aiResponse now' =
     Some (Server.NotAITurn, gameStates')) ∧
  (∀ from' to' now' piece,
     ChessGame.board game' !! from' = Some piece →
     getPieceColor piece = Some (ChessGame.currentPlayer game) →
     ChessGame.makeMove game' from' to' now' = Some (false, game')).
Proof.
  intros Hrun gameStates'.
  pose proof (makeMove_true_turn _ _ _ _ _ Hrun) as Hturn.
  assert (gameStates' !! gameId = Some game') as Hgame by apply lookup_insert_eq.
  split_and!.
  - intros Hwhite from' to' now'. apply (postMove_not_white _ _ game'); [done|].
    by rewrite Hturn, Hwhite.
  - intros Hblack aiResponse now'. apply (postAiMove_not_black _ _ game'); [done|].
    by rewrite Hturn, Hblack.
  - intros from' to' now' piece Hpiece Hcolor.
    apply (makeMove_wrong_colour _ _ _ _ piece); [done|].
    rewrite Hcolor, Hturn. by destruct (ChessGame.currentPlayer game).
Qed.

(** After White's e2-e4 on a fresh session, d2-d4 through the player route
    is out of turn. *)
Lemma second_attempt_after_e2_e4 :
  ∃ game',
    ChessGame.makeMove (ChessGame.new (js "1")) (js "e2") (js "e4") (js "t")
      = Some (true, game') ∧
    Server.postMove (<[js "1" := game']> ∅) (js "1") (js "d2") (js "d4") (js "u") =
    Some (Server.NotYourTurn, <[js "1" := game']> ∅).
Proof.
  eexists. split; [by vm_compute|].
  refine (proj1 (second_attempt_out_of_turn ∅ (js "1")
                   (ChessGame.new (js "1")) (js "e2") (js "e4") (js "t") _ _)
            _ (js "d2") (js "d4") (js "u")); reflexivity.
Defined.

(** The same at the routes' own answers: a second POST to the route that
    just played is out of turn. *)
Lemma postMove_twice gameStates gameId from to now gameState gameStates' from' to' now' :
  Server.postMove gameStates gameId from to now = Some (Server.MoveOk gameState, gameStates') →
  Server.postMove gameStates' gameId from' to' now' = Some (Server.NotYourTurn, gameStates').
Proof.
  unfold Server.postMove at 1. intros Hrun.
  destruct (gameStates !! gameId) as [game|] eqn:Hgame; [|congruence].
  case_bool_decide as Hwhite; [congruence|].
  destruct (makeMove_returns game from to now) as ([|] & game' & Hmove);
    rewrite Hmove in Hrun; simpl in Hrun; [|congruence].
  injection Hrun as _ <-.
  apply (postMove_not_white _ _ game'); [apply lookup_insert_eq|].
  rewrite (makeMove_true_turn _ _ _ _ _ Hmove). by rewrite Hwhite.
Qed.

Lemma postAiMove_twice gameStates gameId aiResponse now aiMove gameState gameStates'
    aiResponse' now' :
  Server.postAiMove gameStates gameId aiResponse now =
    Some (Server.AIMoveOk aiMove gameState, gameStates') →
  Server.postAiMove gameStates' gameId aiResponse' now' = Some (Server.NotAITurn, gameStates').
Proof.
  unfold Server.postAiMove at 1. intros Hrun.
  destruct (gameStates !! gameId) as [game|] eqn:Hgame; [|congruence].
  case_bool_decide as Hblack; [congruence|].
  destruct aiResponse as [|[|] [move|]]; try congruence.
  destruct (makeMove_returns game move.1 move.2 now) as ([|] & game' & Hmove);
    rewrite Hmove in Hrun; simpl in Hrun; [|congruence].
  injection Hrun as _ _ <-.
  apply (postAiMove_not_black _ _ game'); [apply lookup_insert_eq|].
  rewrite (makeMove_true_turn _ _ _ _ _ Hmove). by rewrite Hblack.
Qed.

(** The session left by White's e2-e4 is reachable and not terminated. *)
Lemma reachable_after_e2_e4 :
  ∃ game',
    ChessGame.makeMove (ChessGame.new (js "1")) (js "e2") (js "e4") (js "t")
      = Some (true, game') ∧
    ChessGame.reachable game' ∧
    ChessGame.gameOver game' = false ∧ ChessGame.winner game' = None.
Proof.
  eexists. split; [by vm_compute|].
  assert (ChessGame.reachable
            (ChessGame.new (js "1"))) as Hnew by constructor.
  pose proof (ChessGame.reachable_makeMove _ (js "e2") (js "e4") (js "t") true _ Hnew
                ltac:(by vm_compute)) as Hreach.
  split; [exact Hreach|].
  exact (reachable_never_terminated _ Hreach).
Defined.

(** ** A game opening, end to end *)

(** White plays e2-e4 and Black answers e7-e5: both are accepted, White is
    to move again, the history has two records, both pawns stand on their new
    squares and e2 and e7 are empty. *)
Example opening_e4_e5 :
  ∃ game1 game2,
    ChessGame.makeMove (ChessGame.new (js "1")) (js "e2") (js "e4") (js "t1")
      = Some (true, game1) ∧
    ChessGame.makeMove game1 (js "e7") (js "e5") (js "t2") = Some (true, game2) ∧
    ChessGame.currentPlayer game2 = white ∧
    length (ChessGame.moveHistory game2) = 2%nat ∧
    ChessGame.board game2 !! js "e4" = Some whitePawn ∧
    ChessGame.board game2 !! js "e5" = Some blackPawn ∧
    ChessGame.board game2 !! js "e2" = None ∧
    ChessGame.board game2 !! js "e7" = None.
Proof.
  do 2 eexists. split; [by vm_compute|]. split; [by vm_compute|].
  by vm_compute.
Qed.

(** A rook on a1 reaches a8 over an empty file and is stopped by a piece on
    a4. *)
Example rook_a1_a8 :
  let a1 := {| file := 0; rank := 0 |} in
  let a8 := {| file := 0; rank := 7 |} in
  isValidRookMove {[ js "a1" := whiteRook ]} a1 a8 = Some true ∧
  isValidRookMove (<[ js "a4" := whitePawn ]> {[ js "a1" := whiteRook ]}) a1 a8 = Some false.
Proof. split; by vm_compute. Qed.

(** * Further properties of the validator *)

(** ** Sliding and leaping pieces *)

(** The squares a walk along a shared file or rank stands on are those of
    [onRookPath]. *)
Lemma rook_path_forms (board : Board) from to :
  file from = file to ∨ rank from = rank to →
  (∀ k, 0 < k < Z.max (Z.abs (file to - file from)) (Z.abs (rank to - rank from)) →
        squareEmpty board (file from + k * Z.sgn (file to - file from))
                          (rank from + k * Z.sgn (rank to - rank from))) ↔
  (∀ f r, onRookPath from to f r → squareEmpty board f r).
Proof.
  intros Hline. split.
  - intros Hall f r Hon. unfold onRookPath, strictlyBetween in Hon.
    destruct Hon as [(-> & Hft & Hbetween)|(-> & Hrt & Hbetween)].
    + specialize (Hall (Z.abs (r - rank from)) ltac:(lia)).
      replace (file from + Z.abs (r - rank from) * Z.sgn (file to - file from))
        with (file from) in Hall by nia.
      by replace (rank from + Z.abs (r - rank from) * Z.sgn (rank to - rank from))
        with r in Hall by nia.
    + specialize (Hall (Z.abs (f - file from)) ltac:(lia)).
      replace (rank from + Z.abs (f - file from) * Z.sgn (rank to - rank from))
        with (rank from) in Hall by nia.
      by replace (file from + Z.abs (f - file from) * Z.sgn (file to - file from))
        with f in Hall by nia.
  - intros Hall k Hk. apply Hall. unfold onRookPath, strictlyBetween.
    destruct Hline as [Hfile|Hrank]; [left|right]; nia.
Qed.

(** The squares a walk along a diagonal stands on are those of
    [onBishopPath]. *)
Lemma bishop_path_forms (board : Board) from to :
  Z.abs (file to - file from) = Z.abs (rank to - rank from) →
  (∀ k, 0 < k < Z.max (Z.abs (file to - file from)) (Z.abs (rank to - rank from)) →
        squareEmpty board (file from + k * Z.sgn (file to - file from))
                          (rank from + k * Z.sgn (rank to - rank from))) ↔
  (∀ f r, onBishopPath from to f r → squareEmpty board f r).
Proof.
  intros Hdiag. split.
  - intros Hall f r (Hf & Hr & Habs). unfold strictlyBetween in Hf, Hr.
    specialize (Hall (Z.abs (f - file from)) ltac:(lia)).
    replace (file from + Z.abs (f - file from) * Z.sgn (file to - file from))
      with f in Hall by nia.
    by replace (rank from + Z.abs (f - file from) * Z.sgn (rank to - rank from))
      with r in Hall by nia.
  - intros Hall k Hk. apply Hall. unfold onBishopPath, strictlyBetween.
    split_and!; nia.
Qed.

Lemma isValidRookMove_spec (board : Board) from to :
  ∃ b, isValidRookMove board from to = Some b ∧
       (b = true ↔
        (file from = file to ∨ rank from = rank to) ∧
        ∀ f r, onRookPath from to f r → squareEmpty board f r).
Proof.
  unfold isValidRookMove.
  destruct (bool_decide (file from ≠ file to) && bool_decide (rank from ≠ rank to))
    eqn:Hguard.
  - exists false. split; [done|]. split; [done|]. intros [Hline _].
    apply rook_guard in Hline. congruence.
  - apply rook_guard in Hguard as Hline.
    destruct (isPathClear_returns board from to) as (b & Hrun & Hb); [lia|].
    exists b. split; [done|]. rewrite Hb, (rook_path_forms board from to Hline).
    split; [done|]. by intros [_ ?].
Qed.

(** Bishop: the check returns, and returns true exactly when [from] and [to]
    lie on one diagonal ([|df| = |dr|], the null move included) and every
    square strictly between them on that diagonal is empty. *)
Theorem bishop_geometry (board : Board) (from to : Coords) :
  ∃ b, isValidBishopMove board from to = Some b ∧
       (b = true ↔
        Z.abs (file to - file from) = Z.abs (rank to - rank from) ∧
        ∀ f r, onBishopPath from to f r → squareEmpty board f r).
Proof.
  unfold isValidBishopMove. case_bool_decide as Hdiag.
  - exists false. split; [done|]. split; [done|]. by intros [? _].
  - destruct (isPathClear_returns board from to) as (b & Hrun & Hb); [lia|].
    exists b. split; [done|]. rewrite Hb, (bishop_path_forms board from to Hdiag).
    split; [done|]. by intros [_ ?].
Qed.

(** The walk from [to] back to [from] stands on the same squares. *)
Lemma isPathClear_reverse (board : Board) from to :
  (file to - file from = 0 ∨ rank to - rank from = 0 ∨
   Z.abs (file to - file from) = Z.abs (rank to - rank from)) →
  isPathClear board to from = isPathClear board from to.
Proof.
  intros Haligned.
  destruct (isPathClear_returns board from to) as (b1 & -> & Hb1); [done|].
  destruct (isPathClear_returns board to from) as (b2 & -> & Hb2); [lia|].
  f_equal. apply eq_true_iff_eq. rewrite Hb1, Hb2. clear Hb1 Hb2.
  set (n := Z.max (Z.abs (file to - file from)) (Z.abs (rank to - rank from))).
  replace (Z.max (Z.abs (file from - file to)) (Z.abs (rank from - rank to))) with n by lia.
  assert (file to - file from = n * Z.sgn (file to - file from) ∧
          rank to - rank from = n * Z.sgn (rank to - rank from)) as [Hdf Hdr] by lia.
  split; intros Hall k Hk; specialize (Hall (n - k) ltac:(lia)).
  - replace (file to + (n - k) * Z.sgn (file from - file to))
      with (file from + k * Z.sgn (file to - file from)) in Hall by nia.
    by replace (rank to + (n - k) * Z.sgn (rank from - rank to))
      with (rank from + k * Z.sgn (rank to - rank from)) in Hall by nia.
  - replace (file from + (n - k) * Z.sgn (file to - file from))
      with (file to + k * Z.sgn (file from - file to)) in Hall by nia.
    by replace (rank from + (n - k) * Z.sgn (rank to - rank from))
      with (rank to + k * Z.sgn (rank from - rank to)) in Hall by nia.
Qed.

(** Every piece but the pawn moves both ways: over one board, the rook,
    bishop, queen, king and knight checks give the move [to -> from] the
    answer they give [from -> to]. *)
Theorem non_pawn_moves_reversible (board : Board) (from to : Coords) :
  isValidRookMove board to from = isValidRookMove board from to ∧
  isValidBishopMove board to from = isValidBishopMove board from to ∧
  isValidQueenMove board to from = isValidQueenMove board from to ∧
  isValidKingMove to from = isValidKingMove from to ∧
  isValidKnightMove to from = isValidKnightMove from to.
Proof.
  assert (isValidRookMove board to from = isValidRookMove board from to) as Hrook.
  { unfold isValidRookMove.
    destruct (bool_decide (file from ≠ file to) && bool_decide (rank from ≠ rank to))
      eqn:Hguard.
    - rewrite (proj2 (andb_true_iff _ _)); [done|].
      apply andb_true_iff in Hguard as [?%bool_decide_eq_true ?%bool_decide_eq_true].
      split; by apply bool_decide_eq_true_2.
    - apply rook_guard in Hguard as Hline.
      rewrite (proj2 (rook_guard to from)) by (destruct Hline; [by left|by right]).
      apply isPathClear_reverse. lia. }
  assert (isValidBishopMove board to from = isValidBishopMove board from to) as Hbishop.
  { unfold isValidBishopMove. repeat case_bool_decide; try done; try lia.
    apply isPathClear_reverse. lia. }
  split_and!; try done.
  - unfold isValidQueenMove. by rewrite Hrook, Hbishop.
  - unfold isValidKingMove. apply eq_true_iff_eq.
    rewrite !andb_true_iff, !orb_true_iff, !bool_decide_eq_true. lia.
  - unfold isValidKnightMove. apply eq_true_iff_eq.
    rewrite !orb_true_iff, !andb_true_iff, !bool_decide_eq_true. lia.
Qed.

(** Queen: the check returns, and returns true exactly when the rook rule or
    the bishop rule holds: [from] and [to] share a file or rank with nothing
    between, or share a diagonal with nothing between. *)
Theorem queen_geometry (board : Board) (from to : Coords) :
  ∃ b, isValidQueenMove board from to = Some b ∧
       (b = true ↔
        ((file from = file to ∨ rank from = rank to) ∧
         ∀ f r, onRookPath from to f r → squareEmpty board f r) ∨
        (Z.abs (file to - file from) = Z.abs (rank to - rank from) ∧
         ∀ f r, onBishopPath from to f r → squareEmpty board f r)).
Proof.
  unfold isValidQueenMove.
  destruct (isValidRookMove_spec board from to) as (r & -> & Hr). simpl.
  destruct r.
  - exists true. split; [done|]. split; [|done]. intros _. left. by apply Hr.
  - unfold isValidBishopMove. case_bool_decide as Hdiag.
    + exists false. split; [done|]. split; [done|].
      intros [Hrook|[? _]]; [|done]. by apply Hr in Hrook.
    + destruct (isPathClear_returns board from to) as (b & Hrun & Hb); [lia|].
      exists b. split; [done|]. rewrite Hb, (bishop_path_forms board from to Hdiag).
      split; [by right|]. intros [Hrook|[_ ?]]; [|done]. by apply Hr in Hrook.
Qed.

(** King: exactly the eight neighbouring squares. Knight: exactly the
    squares at squared distance five. Neither looks at the board, and neither
    accepts the null move. *)
Theorem king_knight_geometry (from to : Coords) :
  let df := file to - file from in
  let dr := rank to - rank from in
  (isValidKingMove from to = true ↔ Z.max (Z.abs df) (Z.abs dr) = 1) ∧
  (isValidKnightMove from to = true ↔ df * df + dr * dr = 5).
Proof.
  intros df dr. unfold isValidKingMove, isValidKnightMove. fold df dr.
  clearbody df dr.
  rewrite !andb_true_iff, !orb_true_iff, !andb_true_iff, !bool_decide_eq_true.
  split; [lia|]. split; [nia|]. intros Hsum.
  assert (-2 ≤ df ≤ 2 ∧ -2 ≤ dr ≤ 2) as [Hdf Hdr] by nia.
  assert (df = -2 ∨ df = -1 ∨ df = 0 ∨ df = 1 ∨ df = 2) as Hcases by lia.
  assert (dr = -2 ∨ dr = -1 ∨ dr = 0 ∨ dr = 1 ∨ dr = 2) as Hcases' by lia.
  destruct Hcases as [-> | [-> | [-> | [-> | ->]]]];
    destruct Hcases' as [-> | [-> | [-> | [-> | ->]]]]; lia.
Qed.

(** ** Square names *)

Lemma formatSquare_valid f r :
  0 ≤ f ≤ 7 → 0 ≤ r ≤ 7 →
  isValidSquare (formatSquare f r) = true ∧
  getSquareCoordinates (formatSquare f r) = Some {| file := f; rank := r |}.
Proof. intros Hf Hr. eight_cases f 0; eight_cases r 0; by vm_compute. Qed.

Lemma formatSquare_parsed square :
  isValidSquare square = true →
  ∃ c, getSquareCoordinates square = Some c ∧
       0 ≤ file c ≤ 7 ∧ 0 ≤ rank c ≤ 7 ∧
       formatSquare (file c) (rank c) = square.
Proof.
  intros (c0 & c1 & -> & H0 & H1)%isValidSquare_inv.
  assert (c0 = 97 ∨ c0 = 98 ∨ c0 = 99 ∨ c0 = 100 ∨
          c0 = 101 ∨ c0 = 102 ∨ c0 = 103 ∨ c0 = 104)%N as Hc0 by lia.
  assert (c1 = 49 ∨ c1 = 50 ∨ c1 = 51 ∨ c1 = 52 ∨
          c1 = 53 ∨ c1 = 54 ∨ c1 = 55 ∨ c1 = 56)%N as Hc1 by lia.
  clear H0 H1.
  repeat (destruct Hc0 as [->|Hc0]); try subst c0;
    repeat (destruct Hc1 as [->|Hc1]); try subst c1;
    (eexists; split; [by vm_compute|]; by vm_compute).
Qed.

Lemma elem_of_allSquares square :
  square ∈ allSquares ↔ ∃ f r, 0 ≤ f ≤ 7 ∧ 0 ≤ r ≤ 7 ∧ square = formatSquare f r.
Proof.
  unfold allSquares. rewrite list_elem_of_bind. split.
  - intros (f & (r & Hsq & Hr)%list_elem_of_bind & Hf).
    apply elem_of_seqZ in Hf, Hr. apply list_elem_of_singleton in Hsq.
    exists f, r. split_and!; (done || lia).
  - intros (f & r & Hf & Hr & ->). exists f. split; [|apply elem_of_seqZ; lia].
    apply list_elem_of_bind. exists r. split; [|apply elem_of_seqZ; lia].
    by apply list_elem_of_singleton.
Qed.

Lemma valid_squares_names :
  (∀ square, isValidSquare square = true ↔ square ∈ allSquares) ∧
  length allSquares = 64%nat ∧
  NoDup allSquares.
Proof.
  split_and!.
  - intros square. rewrite elem_of_allSquares. split.
    + intros (c & _ & Hf & Hr & <-)%formatSquare_parsed. eauto.
    + intros (f & r & Hf & Hr & ->). by apply formatSquare_valid.
  - reflexivity.
  - apply (bool_decide_eq_true_1 (NoDup allSquares)). by vm_compute.
Qed.

(** [isValidSquare] accepts exactly the 64 names that [getValidMoves] scans,
    and those are pairwise different; nothing else (wrong length, wrong case,
    file beyond h, rank 0 or 9) is a square. *)
Theorem valid_squares_are_the_64_names :
  (∀ square, isValidSquare square = true ↔ square ∈ allSquares) ∧
  length allSquares = 64%nat ∧
  NoDup allSquares.
Proof.
  split_and!.
  - intros square. rewrite elem_of_allSquares. split.
    + intros (c & _ & Hf & Hr & <-)%formatSquare_parsed. eauto.
    + intros (f & r & Hf & Hr & ->). by apply formatSquare_valid.
  - reflexivity.
  - apply (bool_decide_eq_true_1 (NoDup allSquares)). by vm_compute.
Qed.

(** Parsing a valid square name and formatting the coordinates gives the
    name back, and the coordinates lie on the board. *)
Theorem parse_format_roundtrip (square : jsstring) :
  isValidSquare square = true →
  ∃ c, getSquareCoordinates square = Some c ∧
       0 ≤ file c ≤ 7 ∧ 0 ≤ rank c ≤ 7 ∧
       formatSquare (file c) (rank c) = square.
Proof. apply formatSquare_parsed. Qed.

Lemma parse_format_roundtrip_h8 :
  isValidSquare (js "h8") = true ∧
  ∃ c, getSquareCoordinates (js "h8") = Some c ∧
       0 ≤ file c ≤ 7 ∧ 0 ≤ rank c ≤ 7 ∧
       formatSquare (file c) (rank c) = js "h8".
Proof.
  split; [reflexivity|]. apply (parse_format_roundtrip (js "h8")). reflexivity.
Defined.

(** ** The piece catalogue *)

Lemma includes_head s c t : includes s (c :: t) = true → c ∈ s.
Proof.
  induction s as [|d s IH]; [done|]. simpl.
  intros [Hstart|Hrest]%orb_true_iff.
  - apply andb_true_iff in Hstart as [->%bool_decide_eq_true _]. left.
  - right. by apply IH.
Qed.

Lemma isWhitePiece_head c t : isWhitePiece (c :: t) = true → (0x2654 ≤ c ≤ 0x2659)%N.
Proof.
  intros Hin%includes_head. simpl in Hin.
  repeat (apply elem_of_cons in Hin as [->|Hin]; [lia|]). by apply elem_of_nil in Hin.
Qed.

Lemma isBlackPiece_head c t : isBlackPiece (c :: t) = true → (0x265A ≤ c ≤ 0x265F)%N.
Proof.
  intros Hin%includes_head. simpl in Hin.
  repeat (apply elem_of_cons in Hin as [->|Hin]; [lia|]). by apply elem_of_nil in Hin.
Qed.

Lemma getPieceType_known piece :
  getPieceType piece ∈ sixKinds ↔ piece ∈ pieceGlyphs.
Proof.
  unfold getPieceType. split.
  - destruct (pieceMap !! piece) as [kind|] eqn:Hlookup.
    + intros _. apply elem_of_list_to_map_2 in Hlookup. unfold pieceGlyphs.
      repeat (apply elem_of_cons in Hlookup as [[= -> _]|Hlookup];
              [by repeat (first [left; done | right])|]).
      by apply elem_of_nil in Hlookup.
    + unfold sixKinds. case_bool_decide; intros Hin;
        repeat (apply elem_of_cons in Hin as [?|Hin]; [done|]);
        by apply elem_of_nil in Hin.
  - intros Hin. unfold pieceGlyphs in Hin.
    repeat (apply elem_of_cons in Hin as [->|Hin];
            [eapply bool_decide_eq_true_1; reflexivity|]).
    by apply elem_of_nil in Hin.
Qed.

Lemma glyph_has_colour piece :
  piece ∈ pieceGlyphs → piece ≠ [] ∧ is_Some (getPieceColor piece).
Proof.
  intros Hin. unfold pieceGlyphs in Hin.
  repeat (apply elem_of_cons in Hin as [->|Hin]; [split; [done|by eexists]|]).
  by apply elem_of_nil in Hin.
Qed.

Lemma getPieceType_inherited piece :
  getPieceType piece = inheritedMember ↔ piece ∈ objectPrototypeKeys.
Proof.
  unfold getPieceType. split.
  - destruct (pieceMap !! piece) as [kind|] eqn:Hlookup.
    + intros ->. apply elem_of_list_to_map_2 in Hlookup.
      repeat (apply elem_of_cons in Hlookup as [[=]|Hlookup]).
      by apply elem_of_nil in Hlookup.
    + by case_bool_decide.
  - intros Hin. unfold objectPrototypeKeys in Hin.
    repeat (apply elem_of_cons in Hin as [->|Hin]; [reflexivity|]).
    by apply elem_of_nil in Hin.
Qed.

(** The catalogue is coherent. [getPieceType] gives one of the six kind
    names exactly for the twelve glyphs; a glyph is not empty and has a colour;
    no non-empty string is both white and black; a string without colour gets
    none of the six kinds; and what is returned is an inherited member of the
    table, not a string at all, exactly for the names of those members. *)
Theorem piece_catalogue (piece : jsstring) :
  (getPieceType piece ∈ sixKinds ↔ piece ∈ pieceGlyphs) ∧
  (piece ∈ pieceGlyphs → piece ≠ [] ∧ is_Some (getPieceColor piece)) ∧
  (piece ≠ [] → ¬ (isWhitePiece piece = true ∧ isBlackPiece piece = true)) ∧
  (getPieceColor piece = None → getPieceType piece ∉ sixKinds) ∧
  (getPieceType piece = inheritedMember ↔ piece ∈ objectPrototypeKeys).
Proof.
  split_and!.
  - apply getPieceType_known.
  - apply glyph_has_colour.
  - destruct piece as [|c t]; [done|]. intros _ [Hw%isWhitePiece_head Hb%isBlackPiece_head].
    lia.
  - intros Hnone [_ [colour Hcolour]]%getPieceType_known%glyph_has_colour. congruence.
  - apply getPieceType_inherited.
Qed.

(** A string can have a colour and no kind: two white glyphs in a row are
    "white" to the substring test, and the empty string is too. And a string
    can get something that is neither a kind nor ['unknown']. *)
Example coloured_without_kind :
  getPieceColor (whiteKing ++ whiteQueen) = Some white ∧
  getPieceType (whiteKing ++ whiteQueen) = unknown ∧
  getPieceColor [] = Some white ∧
  getPieceType (js "constructor") = inheritedMember ∧
  getPieceColor (js "constructor") = None.
Proof. by vm_compute. Qed.

(** ** Pawn captures on a board of pieces *)

(** C5: on every board (every entry a piece under the name of a square) the
    pawn check accepts exactly a single forward step onto an empty square, a
    double forward step from the start rank (1 for White, 6 for Black) over an
    empty intermediate square onto an empty square, and a diagonal step onto a
    square occupied by a piece of the opposite colour; every other pawn move
    is refused. *)
Theorem pawn_moves_on_a_board (board : Board) (from to : Coords) (isWhite : bool) :
  wellFormedBoard board →
  let direction := if isWhite then 1 else -1 in
  let startRank := if isWhite then 1 else 6 in
  let df := file to - file from in
  let dr := rank to - rank from in
  isValidPawnMove board from to isWhite = true ↔
    (df = 0 ∧ dr = direction ∧ squareEmpty board (file to) (rank to)) ∨
    (df = 0 ∧ dr = 2 * direction ∧ rank from = startRank ∧
     squareEmpty board (file from) (rank from + direction) ∧
     squareEmpty board (file to) (rank to)) ∨
    (Z.abs df = 1 ∧ dr = direction ∧
     ∃ target, board !! formatSquare (file to) (rank to) = Some target ∧
               getPieceColor target = Some (opposite (moverOf isWhite))).
Proof.
  intros Hwf direction startRank df dr.
  pose proof (pawn_geometry board from to isWhite) as Hpawn. cbv zeta in Hpawn.
  fold direction startRank df dr in Hpawn. rewrite Hpawn. clear Hpawn.
  assert ((∃ target, board !! formatSquare (file to) (rank to) = Some target ∧
                     target ≠ [] ∧ getPieceColor target ≠ Some (moverOf isWhite)) ↔
          (∃ target, board !! formatSquare (file to) (rank to) = Some target ∧
                     getPieceColor target = Some (opposite (moverOf isWhite)))) as Hcapture.
  { split.
    - intros (target & Hlookup & _ & Hcolour). exists target. split; [done|].
      destruct (Hwf _ _ Hlookup) as [_ [_ Hsome]%glyph_has_colour].
      apply not_own_colour_is_opposite; [|done]. by apply not_eq_None_Some.
    - intros (target & Hlookup & Hcolour). exists target. split; [done|].
      destruct (Hwf _ _ Hlookup) as [_ [Hne _]%glyph_has_colour]. split; [done|].
      rewrite Hcolour. by destruct (moverOf isWhite). }
  by rewrite Hcapture.
Qed.

(** A white pawn on e4 takes the black pawn on d5. *)
Lemma pawn_takes_on_d5 :
  let board : Board := <[js "d5" := blackPawn]> (<[js "e4" := whitePawn]> ∅) in
  let e4 := {| file := 4; rank := 3 |} in
  let d5 := {| file := 3; rank := 4 |} in
  wellFormedBoard board ∧
  isValidPawnMove board e4 d5 true = true ∧
  ∃ target, board !! formatSquare (file d5) (rank d5) = Some target ∧
            getPieceColor target = Some (opposite (moverOf true)).
Proof.
  intros board e4 d5.
  assert (wellFormedBoard board) as Hwf.
  { repeat (apply map_Forall_insert_2;
            [split; [reflexivity|eapply bool_decide_eq_true_1; reflexivity]|]).
    apply map_Forall_empty. }
  split; [exact Hwf|]. split; [reflexivity|].
  destruct (proj1 (pawn_moves_on_a_board board e4 d5 true Hwf) eq_refl)
    as [(Hdf & _)|[(Hdf & _)|(_ & _ & Htarget)]];
    [discriminate Hdf|discriminate Hdf|exact Htarget].
Defined.

(** ** The legality check as a whole *)

Lemma isValidPieceMove_true_known (board : Board) from to piece :
  isValidPieceMove board from to piece = Some true → getPieceType piece ∈ sixKinds.
Proof.
  unfold isValidPieceMove.
  destruct (getSquareCoordinates from); [|done].
  destruct (getSquareCoordinates to); [|done]. simpl.
  destruct (getPieceType piece); try done; intros _;
    eapply bool_decide_eq_true_1; reflexivity.
Qed.

Lemma legal_contract (board : Board) (from to : jsstring) (mover : Color) :
  isValidMove board from to mover = Some true →
  isValidSquare from = true ∧ isValidSquare to = true ∧ from ≠ to ∧
  (∃ piece, board !! from = Some piece ∧ piece ∈ pieceGlyphs ∧
            getPieceColor piece = Some mover) ∧
  (∀ target, board !! to = Some target → target ≠ [] →
             getPieceColor target ≠ Some mover).
Proof.
  intros Hvalid.
  assert (from ≠ to) as Hne.
  { intros ->. by rewrite isValidMove_null in Hvalid. }
  revert Hvalid. unfold isValidMove.
  destruct (isValidSquare from); [|done].
  destruct (isValidSquare to); [|done]. simpl.
  destruct (board !! from) as [[|c piece]|]; [done| |done].
  case_bool_decide as Hcolor; [done|].
  destruct (board !! to) as [[|d target]|] eqn:Hto.
  - intros Hpiece%isValidPieceMove_true_known%getPieceType_known.
    split_and!; try done; [by eexists|]. by intros ? [= <-].
  - case_bool_decide as Hown; [done|].
    intros Hpiece%isValidPieceMove_true_known%getPieceType_known.
    split_and!; try done; [by eexists|]. by intros ? [= <-].
  - intros Hpiece%isValidPieceMove_true_known%getPieceType_known.
    split_and!; try done. by eexists.
Qed.

(** What an accepted move guarantees: both names are squares and differ; the
    origin holds one of the twelve glyphs, of the mover's colour; and the
    destination holds nothing of the mover's colour. *)
Theorem legal_move_contract (board : Board) (from to : jsstring) (mover : Color) :
  isValidMove board from to mover = Some true →
  isValidSquare from = true ∧ isValidSquare to = true ∧ from ≠ to ∧
  (∃ piece, board !! from = Some piece ∧ piece ∈ pieceGlyphs ∧
            getPieceColor piece = Some mover) ∧
  (∀ target, board !! to = Some target → target ≠ [] →
             getPieceColor target ≠ Some mover).
Proof. apply legal_contract. Qed.

Lemma legal_move_contract_b1_c3 :
  isValidMove ChessGame.initBoard (js "b1") (js "c3") white = Some true ∧
  js "b1" ≠ js "c3" ∧
  ∃ piece, ChessGame.initBoard !! js "b1" = Some piece ∧ piece ∈ pieceGlyphs ∧
           getPieceColor piece = Some white.
Proof.
  split; [by vm_compute|].
  pose proof (legal_move_contract ChessGame.initBoard (js "b1") (js "c3") white
                ltac:(by vm_compute)) as (_ & _ & Hne & Hpiece & _).
  by split.
Defined.

(** The scan of [getValidMoves] over any list of coordinates keeps, in
    order, the names that [isValidMove] accepts. *)
Lemma getValidMoves_scan (board : Board) square currentPlayer (squares : list (Z * Z)) :
  ∀ validMoves,
    foldl
      (λ (acc : option (list jsstring)) (fr : Z * Z),
         acc ≫= λ validMoves : list jsstring,
         let targetSquare := formatSquare fr.1 fr.2 in
         isValidMove board square targetSquare currentPlayer ≫= λ ok : bool,
         Some (if ok then validMoves ++ [targetSquare] else validMoves))
      (Some validMoves) squares =
    Some (validMoves ++
          filter (λ target, isValidMove board square target currentPlayer = Some true)
                 ((λ fr : Z * Z, formatSquare fr.1 fr.2) <$> squares)).
Proof.
  induction squares as [|[f r] squares IH]; intros validMoves; simpl.
  - by rewrite app_nil_r.
  - destruct (isValidMove_returns board square (formatSquare f r) currentPlayer)
      as ([|] & Hvalid); rewrite Hvalid; simpl; rewrite IH.
    + rewrite filter_cons_True by done. by rewrite <- app_assoc.
    + by rewrite filter_cons_False by congruence.
Qed.

Lemma getValidMoves_filter (board : Board) square currentPlayer :
  getValidMoves board square currentPlayer =
  Some (filter (λ target, isValidMove board square target currentPlayer = Some true)
               allSquares).
Proof. unfold getValidMoves. by rewrite getValidMoves_scan. Qed.

(** [getValidMoves] returns, for every board and origin, exactly the targets
    that [isValidMove] accepts: in scanning order (a1, a2, ..., h8), each
    once, all of them squares, and never the origin itself. *)
Theorem getValidMoves_exact (board : Board) (square : jsstring) (currentPlayer : Color) :
  ∃ validMoves,
    getValidMoves board square currentPlayer = Some validMoves ∧
    validMoves =
      filter (λ target, isValidMove board square target currentPlayer = Some true)
             allSquares ∧
    (∀ target, target ∈ validMoves ↔
               isValidMove board square target currentPlayer = Some true) ∧
    NoDup validMoves ∧
    (square ∉ validMoves) ∧
    (length validMoves ≤ 64)%nat.
Proof.
  eexists. split; [apply getValidMoves_filter|]. split; [done|].
  destruct valid_squares_names as (Hnames & Hlen & Hnodup).
  split_and!.
  - intros target. rewrite list_elem_of_filter. split; [by intros [? _]|].
    intros Hvalid. split; [done|]. apply Hnames.
    revert Hvalid. unfold isValidMove.
    destruct (isValidSquare square); [|done]. by destruct (isValidSquare target).
  - by apply list.NoDup_filter.
  - rewrite list_elem_of_filter, isValidMove_null. by intros [? _].
  - rewrite <- Hlen. apply length_filter.
Qed.

(** Selecting a square that does not hold a piece of the side to move gives
    no targets. *)
Theorem no_moves_without_own_piece (board : Board) (square : jsstring) (currentPlayer : Color) :
  (∀ piece, board !! square = Some piece →
            piece = [] ∨ getPieceColor piece ≠ Some currentPlayer) →
  getValidMoves board square currentPlayer = Some [].
Proof.
  intros Hnot. rewrite getValidMoves_filter. f_equal.
  apply elem_of_nil_inv. intros target [Hvalid _]%list_elem_of_filter.
  revert Hvalid. unfold isValidMove.
  destruct (negb (isValidSquare square) || negb (isValidSquare target)); [done|].
  destruct (board !! square) as [[|c piece]|]; [done| |done].
  destruct (Hnot (c :: piece) eq_refl) as [?|Hcolor]; [done|].
  by rewrite (bool_decide_eq_true_2 _ Hcolor).
Qed.

Lemma no_moves_from_e4_at_start :
  (∀ piece, ChessGame.initBoard !! js "e4" = Some piece →
            piece = [] ∨ getPieceColor piece ≠ Some white) ∧
  getValidMoves ChessGame.initBoard (js "e4") white = Some [].
Proof.
  assert (∀ piece, ChessGame.initBoard !! js "e4" = Some piece →
                   piece = [] ∨ getPieceColor piece ≠ Some white) as Hempty.
  { intros piece Hlookup. vm_compute in Hlookup. discriminate. }
  split; [exact Hempty|].
  exact (no_moves_without_own_piece ChessGame.initBoard (js "e4") white Hempty).
Defined.

(** * Further properties of the session *)

(** On strings, the validator and the session always return: for every
    board, every pair of strings and every player, [isValidMove],
    [getValidMoves] and [makeMove] come back with an answer. The only loop
    that could run on, the path walk, is entered on aligned squares only,
    whatever the board holds, and there it exits. *)
Theorem chess_calls_always_return
    (board : Board) (from to : jsstring) (mover : Color)
    (this : ChessGame.t) (now : jsstring) :
  (∃ b, isValidMove board from to mover = Some b) ∧
  (∃ validMoves, getValidMoves board from mover = Some validMoves) ∧
  (∃ ok this', ChessGame.makeMove this from to now = Some (ok, this')).
Proof.
  split_and!.
  - apply isValidMove_returns.
  - rewrite getValidMoves_filter. by eexists.
  - apply makeMove_returns.
Qed.

(** ** What the board of a session holds *)

Lemma assign_wellFormed (target : Board) source :
  wellFormedBoard target →
  Forall (λ kv : jsstring * jsstring,
            isValidSquare kv.1 = true ∧ kv.2 ∈ pieceGlyphs) source →
  wellFormedBoard (ChessGame.assign target source).
Proof.
  unfold ChessGame.assign. intros Htarget Hsource. revert target Htarget.
  induction Hsource as [|[k v] source Hkv _ IH]; intros target Htarget; [done|].
  simpl. apply IH. by apply map_Forall_insert_2.
Qed.

Lemma initBoard_wellFormed : wellFormedBoard ChessGame.initBoard.
Proof.
  unfold ChessGame.initBoard.
  apply assign_wellFormed; [apply assign_wellFormed; [apply map_Forall_empty|]|];
    (eapply bool_decide_eq_true_1; by vm_compute).
Qed.

Lemma makeMove_wellFormed this fromSquare toSquare now ok this' :
  ChessGame.makeMove this fromSquare toSquare now = Some (ok, this') →
  wellFormedBoard (ChessGame.board this) →
  wellFormedBoard (ChessGame.board this').
Proof.
  intros Hrun Hwf. destruct ok.
  - apply makeMove_true in Hrun as (piece & Hpiece & _ & _ & Hto & _ & _ & ->). simpl.
    apply map_Forall_delete, map_Forall_insert_2; [|done].
    split; [done|]. by apply (Hwf fromSquare piece).
  - by apply makeMove_false in Hrun as ->.
Qed.

Lemma reachable_wellFormed this :
  ChessGame.reachable this → wellFormedBoard (ChessGame.board this).
Proof.
  induction 1 as [gameId|this fromSquare toSquare now ok this' _ IH Hrun].
  - apply initBoard_wellFormed.
  - by eapply makeMove_wellFormed.
Qed.

Lemma makeMove_true_size this fromSquare toSquare now this' :
  ChessGame.makeMove this fromSquare toSquare now = Some (true, this') →
  size (ChessGame.board this') =
  match ChessGame.board this !! toSquare with
  | Some _ => pred (size (ChessGame.board this))
  | None => size (ChessGame.board this)
  end.
Proof.
  intros (piece & Hpiece & _ & _ & _ & _ & Hne & ->)%makeMove_true. simpl.
  rewrite map_size_delete, lookup_insert_ne, Hpiece by done.
  rewrite map_size_insert. by destruct (ChessGame.board this !! toSquare).
Qed.

Lemma makeMove_size_le this fromSquare toSquare now ok this' :
  ChessGame.makeMove this fromSquare toSquare now = Some (ok, this') →
  (size (ChessGame.board this') ≤ size (ChessGame.board this))%nat.
Proof.
  intros Hrun. destruct ok.
  - rewrite (makeMove_true_size _ _ _ _ _ Hrun).
    destruct (ChessGame.board this !! toSquare); lia.
  - by apply makeMove_false in Hrun as ->.
Qed.

Lemma countPiece_insert (piece : jsstring) (board : Board) (k v : jsstring) :
  (countPiece piece (<[k := v]> board) ≤
   countPiece piece board + (if decide (v = piece) then 1 else 0))%nat.
Proof.
  unfold countPiece. destruct (decide (v = piece)) as [Heq|Hne].
  - rewrite map_filter_insert_True by done. rewrite map_size_insert.
    destruct (filter _ board !! k); simpl; lia.
  - rewrite map_filter_insert_False by done. rewrite map_filter_delete, map_size_delete.
    destruct (filter _ board !! k); simpl; lia.
Qed.

Lemma countPiece_delete (piece : jsstring) (board : Board) (k v : jsstring) :
  board !! k = Some v →
  (countPiece piece (delete k board) + (if decide (v = piece) then 1 else 0))%nat =
  countPiece piece board.
Proof.
  intros Hlookup. unfold countPiece. rewrite map_filter_delete, map_size_delete.
  destruct (decide (v = piece)) as [Heq|Hne].
  - assert (filter (λ kv : jsstring * jsstring, kv.2 = piece) board !! k = Some v) as Hin
      by by apply map_lookup_filter_Some_2.
    rewrite Hin. simpl.
    pose proof (map_size_ne_0_lookup_2 _ k (mk_is_Some _ _ Hin)). lia.
  - assert (filter (λ kv : jsstring * jsstring, kv.2 = piece) board !! k = None) as Hout.
    { apply map_lookup_filter_None_2. right. intros x Hx. simpl. congruence. }
    rewrite Hout. simpl. lia.
Qed.

Lemma makeMove_count_le (piece : jsstring) this fromSquare toSquare now ok this' :
  ChessGame.makeMove this fromSquare toSquare now = Some (ok, this') →
  (countPiece piece (ChessGame.board this') ≤ countPiece piece (ChessGame.board this))%nat.
Proof.
  intros Hrun. destruct ok; [|by apply makeMove_false in Hrun as ->].
  apply makeMove_true in Hrun as (moved & Hmoved & _ & _ & _ & _ & Hne & ->). simpl.
  pose proof (countPiece_insert piece (ChessGame.board this) toSquare moved) as Hins.
  pose proof (countPiece_delete piece (<[toSquare := moved]> (ChessGame.board this))
                fromSquare moved) as Hdel.
  rewrite lookup_insert_ne in Hdel by done. specialize (Hdel Hmoved). lia.
Qed.

(** In every reachable session the board holds at most 32 entries, each
    under the name of a square and each one of the twelve glyphs, and no
    string stands on more squares than it does in the starting position (at
    most eight white pawns, one white queen, ...). *)
Theorem reachable_board_well_formed (this : ChessGame.t) :
  ChessGame.reachable this →
  wellFormedBoard (ChessGame.board this) ∧
  (size (ChessGame.board this) ≤ 32)%nat ∧
  ∀ piece, (countPiece piece (ChessGame.board this) ≤
            countPiece piece ChessGame.initBoard)%nat.
Proof.
  intros Hreach. split; [by apply reachable_wellFormed|].
  induction Hreach as [gameId|this fromSquare toSquare now ok this' _ [IHsize IHcount] Hrun].
  - split; [by vm_compute|done].
  - split.
    + etrans; [by eapply makeMove_size_le|done].
    + intros piece. etrans; [by eapply makeMove_count_le|done].
Qed.

(** An accepted move changes the number of pieces by exactly the capture:
    one fewer when the destination held something, the same otherwise. *)
Theorem accepted_move_piece_count
    (this : ChessGame.t) (fromSquare toSquare now : jsstring) (this' : ChessGame.t) :
  ChessGame.makeMove this fromSquare toSquare now = Some (true, this') →
  size (ChessGame.board this') =
  match ChessGame.board this !! toSquare with
  | Some _ => pred (size (ChessGame.board this))
  | None => size (ChessGame.board this)
  end.
Proof. apply makeMove_true_size. Qed.

(** In a reachable session a capture only ever takes a piece of the other
    colour (the king included: nothing protects it), and the piece that moves
    is of the colour whose turn it is. *)
Theorem captures_take_the_other_colour
    (this : ChessGame.t) (fromSquare toSquare now : jsstring) (this' : ChessGame.t) :
  ChessGame.reachable this →
  ChessGame.makeMove this fromSquare toSquare now = Some (true, this') →
  (∃ piece, ChessGame.board this !! fromSquare = Some piece ∧
            getPieceColor piece = Some (ChessGame.currentPlayer this)) ∧
  (∀ target, ChessGame.board this !! toSquare = Some target →
             getPieceColor target = Some (opposite (ChessGame.currentPlayer this))).
Proof.
  intros Hwf%reachable_wellFormed (piece & _ & _ & _ & _ & Hvalid & _ & _)%makeMove_true.
  destruct (legal_contract _ _ _ _ Hvalid)
    as (_ & _ & _ & (piece' & Hpiece' & _ & Hcolor) & Htarget).
  split; [by eauto|]. intros target Hlookup.
  destruct (Hwf toSquare target Hlookup) as [_ Hglyph].
  apply glyph_has_colour in Hglyph as [Hne [colour Hcolour]].
  specialize (Htarget target Hlookup Hne). rewrite Hcolour in *.
  f_equal. destruct colour, (ChessGame.currentPlayer this); simpl; congruence.
Qed.

(** ** Turn and history *)

Lemma reachable_history this :
  ChessGame.reachable this →
  ChessGame.currentPlayer this =
    (if Nat.even (length (ChessGame.moveHistory this)) then white else black) ∧
  ∀ i record, ChessGame.moveHistory this !! i = Some record → recordOk i record.
Proof.
  induction 1 as [gameId|this fromSquare toSquare now ok this' Hreach [IHturn IHrec] Hrun].
  - split; [done|]. intros i record Hlookup. simpl in Hlookup.
    by rewrite lookup_nil in Hlookup.
  - destruct ok; [|by apply makeMove_false in Hrun as ->].
    apply makeMove_true in Hrun
      as (piece & Hpiece & _ & Hfrom & Hto & Hvalid & Hne & ->). simpl.
    destruct (legal_contract _ _ _ _ Hvalid)
      as (_ & _ & _ & (piece' & Hpiece' & Hglyph & Hcolor) & _).
    assert (piece' = piece) as -> by congruence.
    split.
    + rewrite length_app, Nat.add_1_r, Nat.even_succ, <- Nat.negb_even, IHturn.
      by destruct (Nat.even _).
    + intros i record Hlookup.
      apply lookup_app_Some in Hlookup as [Hold|[Hlen Hlast]]; [by apply IHrec|].
      apply list_lookup_singleton_Some in Hlast as [Hi <-].
      assert (i = length (ChessGame.moveHistory this)) as -> by lia.
      unfold recordOk. simpl. by rewrite <- IHturn.
Qed.

(** In every reachable session the turn is read off the history: White is
    to move exactly when the number of recorded moves is even, and the
    snapshot's [moveCount] is that number. *)
Theorem turn_follows_history (this : ChessGame.t) :
  ChessGame.reachable this →
  ChessGame.currentPlayer this =
    (if Nat.even (length (ChessGame.moveHistory this)) then white else black) ∧
  GameState.moveCount (ChessGame.getGameState this) = length (ChessGame.moveHistory this) ∧
  GameState.currentPlayer (ChessGame.getGameState this) =
    (if Nat.even (GameState.moveCount (ChessGame.getGameState this)) then white else black).
Proof.
  intros [Hturn _]%reachable_history. by rewrite <- Hturn.
Qed.

(** In every reachable session the records alternate White, Black, White,
    ... from the first on; each names two different squares and one of the
    twelve glyphs, of the colour of the player who moved it. *)
Theorem history_records_well_formed (this : ChessGame.t) (i : nat) (record : ChessMove.t) :
  ChessGame.reachable this →
  ChessGame.moveHistory this !! i = Some record →
  ChessMove.player record = (if Nat.even i then white else black) ∧
  isValidSquare (ChessMove.from record) = true ∧
  isValidSquare (ChessMove.to record) = true ∧
  ChessMove.from record ≠ ChessMove.to record ∧
  ChessMove.piece record ∈ pieceGlyphs ∧
  getPieceColor (ChessMove.piece record) = Some (ChessMove.player record).
Proof.
  intros [_ Hrec]%reachable_history Hlookup. by apply (Hrec i record).
Qed.

Lemma playMoves_returns this calls : ∃ this', playMoves this calls = Some this'.
Proof.
  revert this. induction calls as [|[[fromSquare toSquare] now] calls IH]; intros this.
  - by eexists.
  - simpl. destruct (makeMove_returns this fromSquare toSquare now) as (ok & this1 & ->).
    apply IH.
Qed.

Lemma playMoves_history this calls this' :
  playMoves this calls = Some this' →
  ChessGame.moveHistory this `prefix_of` ChessGame.moveHistory this' ∧
  (length (ChessGame.moveHistory this') ≤
   length (ChessGame.moveHistory this) + length calls)%nat.
Proof.
  revert this. induction calls as [|[[fromSquare toSquare] now] calls IH]; intros this.
  - intros [= <-]. split; [done|simpl; lia].
  - simpl. destruct (makeMove_returns this fromSquare toSquare now) as (ok & this1 & Hrun).
    rewrite Hrun. simpl. intros [Hprefix Hlen]%IH.
    destruct ok.
    + apply makeMove_true in Hrun as (piece & _ & _ & _ & _ & _ & _ & ->).
      simpl in *. rewrite length_app in Hlen. simpl in Hlen.
      split; [by eapply prefix_app_l|lia].
    + apply makeMove_false in Hrun as ->. split; [done|lia].
Qed.

Lemma playMoves_reachable this calls this' :
  ChessGame.reachable this → playMoves this calls = Some this' → ChessGame.reachable this'.
Proof.
  revert this. induction calls as [|[[fromSquare toSquare] now] calls IH]; intros this Hreach.
  - by intros [= <-].
  - simpl. destruct (makeMove_returns this fromSquare toSquare now) as (ok & this1 & Hrun).
    rewrite Hrun. simpl. apply IH. by eapply ChessGame.reachable_makeMove.
Qed.

(** The history is append-only. Whatever calls a client makes, accepted or
    not, the history before them is a prefix of the history after them, and it
    grows by at most one record per call. *)
Theorem history_is_append_only
    (this : ChessGame.t) (calls : list (jsstring * jsstring * jsstring)) :
  ∃ this',
    playMoves this calls = Some this' ∧
    ChessGame.moveHistory this `prefix_of` ChessGame.moveHistory this' ∧
    (length (ChessGame.moveHistory this') ≤
     length (ChessGame.moveHistory this) + length calls)%nat.
Proof.
  destruct (playMoves_returns this calls) as (this' & Hrun).
  exists this'. split; [done|]. by apply playMoves_history.
Qed.

(** ** The registry *)

Lemma served_sessions gameStates :
  Server.served gameStates →
  ∀ gameId game, gameStates !! gameId = Some game →
                 ChessGame.gameId game = gameId ∧ ChessGame.reachable game.
Proof.
  induction 1 as [|gameStates newId _ IH
                  |gameStates moveId from to now response gameStates' _ IH Hrun
                  |gameStates moveId aiResponse now response gameStates' _ IH Hrun];
    intros gameId game Hgame.
  - by rewrite lookup_empty in Hgame.
  - simpl in Hgame. apply lookup_insert_Some in Hgame as [[<- <-]|[_ Hgame]]; [|by apply IH].
    split; [done|constructor].
  - revert Hrun. unfold Server.postMove.
    destruct (gameStates !! moveId) as [old|] eqn:Hold;
      [|intros [= _ <-]; by apply IH].
    case_bool_decide; [intros [= _ <-]; by apply IH|].
    destruct (makeMove_returns old from to now) as (ok & new & Hmove).
    rewrite Hmove. simpl. intros Hrun.
    assert (gameStates' = <[moveId := new]> gameStates) as ->.
    { destruct ok; simpl in Hrun; congruence. }
    apply lookup_insert_Some in Hgame as [[<- <-]|[_ Hgame]]; [|by apply IH].
    destruct (IH _ _ Hold) as [Hid Hreach]. split.
    + by apply makeMove_frame in Hmove as (-> & _ & _).
    + by eapply ChessGame.reachable_makeMove.
  - revert Hrun. unfold Server.postAiMove.
    destruct (gameStates !! moveId) as [old|] eqn:Hold;
      [|intros [= _ <-]; by apply IH].
    case_bool_decide; [intros [= _ <-]; by apply IH|].
    destruct aiResponse as [|[|] [move|]]; try (intros [= _ <-]; by apply IH).
    destruct (makeMove_returns old move.1 move.2 now) as (ok & new & Hmove).
    rewrite Hmove. simpl. intros Hrun.
    assert (gameStates' = <[moveId := new]> gameStates) as ->.
    { destruct ok; simpl in Hrun; congruence. }
    apply lookup_insert_Some in Hgame as [[<- <-]|[_ Hgame]]; [|by apply IH].
    destruct (IH _ _ Hold) as [Hid Hreach]. split.
    + by apply makeMove_frame in Hmove as (-> & _ & _).
    + by eapply ChessGame.reachable_makeMove.
Qed.

(** Every session a server ever holds is stored under its own id, was
    reached from a fresh game by [makeMove] calls, and is therefore never
    terminated; its board is well formed. *)
Theorem served_sessions_are_reachable
    (gameStates : Server.Registry) (gameId : jsstring) (game : ChessGame.t) :
  Server.served gameStates →
  gameStates !! gameId = Some game →
  ChessGame.gameId game = gameId ∧
  ChessGame.reachable game ∧
  ChessGame.gameOver game = false ∧
  ChessGame.winner game = None ∧
  wellFormedBoard (ChessGame.board game).
Proof.
  intros Hserved Hgame. destruct (served_sessions _ Hserved _ _ Hgame) as [Hid Hreach].
  split_and!; try done.
  - clear Hgame Hid. induction Hreach as [|this f t now ok this' _ IH Hrun]; [done|].
    by apply makeMove_frame in Hrun as (_ & -> & _).
  - clear Hgame Hid. induction Hreach as [|this f t now ok this' _ IH Hrun]; [done|].
    by apply makeMove_frame in Hrun as (_ & _ & ->).
  - by apply reachable_wellFormed.
Qed.

Lemma postMove_frame gameStates gameId from to now response gameStates' :
  Server.postMove gameStates gameId from to now = Some (response, gameStates') →
  dom gameStates' = dom gameStates ∧
  ∀ other, other ≠ gameId → gameStates' !! other = gameStates !! other.
Proof.
  unfold Server.postMove.
  destruct (gameStates !! gameId) as [game|] eqn:Hgame; [|by intros [= _ <-]].
  case_bool_decide; [by intros [= _ <-]|].
  destruct (makeMove_returns game from to now) as (ok & game' & ->). simpl.
  intros Hrun.
  assert (gameStates' = <[gameId := game']> gameStates) as ->.
  { destruct ok; simpl in Hrun; congruence. }
  split.
  - by apply dom_insert_lookup_L.
  - intros other Hne. by rewrite lookup_insert_ne.
Qed.

Lemma postAiMove_frame gameStates gameId aiResponse now response gameStates' :
  Server.postAiMove gameStates gameId aiResponse now = Some (response, gameStates') →
  dom gameStates' = dom gameStates ∧
  ∀ other, other ≠ gameId → gameStates' !! other = gameStates !! other.
Proof.
  unfold Server.postAiMove.
  destruct (gameStates !! gameId) as [game|] eqn:Hgame; [|by intros [= _ <-]].
  case_bool_decide; [by intros [= _ <-]|].
  destruct aiResponse as [|[|] [move|]]; try by intros [= _ <-].
  destruct (makeMove_returns game move.1 move.2 now) as (ok & game' & ->). simpl.
  intros Hrun.
  assert (gameStates' = <[gameId := game']> gameStates) as ->.
  { destruct ok; simpl in Hrun; congruence. }
  split.
  - by apply dom_insert_lookup_L.
  - intros other Hne. by rewrite lookup_insert_ne.
Qed.

(** Sessions are independent and never deleted. A move request, from the
    player or the AI, leaves every other session as it was and neither adds
    nor removes an id; creating a game adds its id and leaves the others as
    they were. *)
Theorem routes_touch_one_session
    (gameStates : Server.Registry) (gameId from to now : jsstring)
    (aiResponse : Server.AIResponse) :
  (∀ response gameStates',
     Server.postMove gameStates gameId from to now = Some (response, gameStates') →
     dom gameStates' = dom gameStates ∧
     ∀ other, other ≠ gameId → gameStates' !! other = gameStates !! other) ∧
  (∀ response gameStates',
     Server.postAiMove gameStates gameId aiResponse now = Some (response, gameStates') →
     dom gameStates' = dom gameStates ∧
     ∀ other, other ≠ gameId → gameStates' !! other = gameStates !! other) ∧
  (dom (Server.postGameNew gameStates gameId).2 = {[gameId]} ∪ dom gameStates ∧
   ∀ other, other ≠ gameId →
            (Server.postGameNew gameStates gameId).2 !! other = gameStates !! other).
Proof.
  split_and!.
  - intros response gameStates'. apply postMove_frame.
  - intros response gameStates'. apply postAiMove_frame.
  - simpl. apply dom_insert_L.
  - intros other Hne. simpl. by rewrite lookup_insert_ne.
Qed.

(** Accepted moves are legal. [makeMove] returns true exactly when
    [isValidMove] accepts the move for the side to move on the board as it
    stands at that call; and the player route, which runs without a pause,
    answers with success only for a move that is legal for White on the
    stored board. *)
Theorem accepted_moves_are_legal
    (this : ChessGame.t) (from to now : jsstring)
    (gameStates gameStates' : Server.Registry) (gameId : jsstring) :
  ((∃ this', ChessGame.makeMove this from to now = Some (true, this')) ↔
   isValidMove (ChessGame.board this) from to (ChessGame.currentPlayer this) = Some true) ∧
  (∀ gameState,
     Server.postMove gameStates gameId from to now =
       Some (Server.MoveOk gameState, gameStates') →
     ∃ game, gameStates !! gameId = Some game ∧
             ChessGame.currentPlayer game = white ∧
             isValidMove (ChessGame.board game) from to white = Some true).
Proof.
  split.
  - split.
    + intros (this' & Hrun). by apply makeMove_true in Hrun as (_ & _ & _ & _ & _ & ? & _).
    + intros Hvalid.
      destruct (isValidMove_true_inv _ _ _ _ Hvalid) as (Hfrom & Hto & c & piece & Hpiece & _).
      unfold ChessGame.makeMove. rewrite Hfrom, Hto, Hpiece, Hvalid. simpl. by eexists.
  - intros gameState. unfold Server.postMove.
    destruct (gameStates !! gameId) as [game|]; [|done].
    case_bool_decide as Hwhite; [done|].
    destruct (makeMove_returns game from to now) as ([|] & game' & Hmove);
      rewrite Hmove; simpl; [|done]. intros _.
    apply makeMove_true in Hmove as (_ & _ & _ & _ & _ & Hvalid & _).
    exists game. split; [done|]. split; [done|]. by rewrite <- Hwhite.
Qed.

(** 1. e4 is legal at the start, so [makeMove] takes it. *)
Lemma accepted_moves_are_legal_e2_e4 :
  isValidMove ChessGame.initBoard (js "e2") (js "e4") white = Some true ∧
  ∃ this', ChessGame.makeMove (ChessGame.new (js "1")) (js "e2") (js "e4") (js "t1") =
             Some (true, this').
Proof.
  assert (isValidMove (ChessGame.board (ChessGame.new (js "1"))) (js "e2") (js "e4")
            (ChessGame.currentPlayer (ChessGame.new (js "1"))) = Some true) as Hvalid
    by (by vm_compute).
  split; [exact Hvalid|].
  exact (proj2 (proj1 (accepted_moves_are_legal (ChessGame.new (js "1"))
                         (js "e2") (js "e4") (js "t1") ∅ ∅ (js "1"))) Hvalid).
Defined.

(** Reading after writing. A created game is found with the starting
    position and White to move; the snapshot a successful move returns is the
    one the next GET returns; an id never created is not found. *)
Theorem getGame_reads_last_write
    (gameStates : Server.Registry) (gameId from to now : jsstring) :
  Server.getGame (Server.postGameNew gameStates gameId).2 gameId =
    Server.Found (ChessGame.getGameState (ChessGame.new gameId)) ∧
  (∀ gameState gameStates',
     Server.postMove gameStates gameId from to now =
       Some (Server.MoveOk gameState, gameStates') →
     Server.getGame gameStates' gameId = Server.Found gameState) ∧
  (∀ response gameStates',
     Server.postMove gameStates gameId from to now = Some (response, gameStates') →
     (∀ gameState, response ≠ Server.MoveOk gameState) →
     Server.getGame gameStates' gameId = Server.getGame gameStates gameId) ∧
  (gameStates !! gameId = None → Server.getGame gameStates gameId = Server.NotFound).
Proof.
  split_and!.
  - unfold Server.getGame. simpl. by rewrite lookup_insert_eq.
  - intros gameState gameStates'. unfold Server.postMove, Server.getGame.
    destruct (gameStates !! gameId) as [game|]; [|done].
    case_bool_decide; [done|].
    destruct (makeMove_returns game from to now) as ([|] & game' & ->); simpl; [|done].
    intros [= <- <-]. by rewrite lookup_insert_eq.
  - intros response gameStates' Hrun Hrejected.
    by rewrite (postMove_rejected _ _ _ _ _ _ _ Hrun Hrejected).
  - intros Hnone. unfold Server.getGame. by rewrite Hnone.
Qed.

(** ** The session properties on a short game *)

(** After 1. e4 d5 2. exd5 the board is well formed, holds 31 pieces, and
    seven black pawns against the eight of the start. *)
Lemma reachable_board_well_formed_exd5 :
  ∃ game,
    playMoves (ChessGame.new (js "1"))
      [ (js "e2", js "e4", js "t1"); (js "d7", js "d5", js "t2");
        (js "e4", js "d5", js "t3") ] = Some game ∧
    ChessGame.reachable game ∧
    wellFormedBoard (ChessGame.board game) ∧
    (size (ChessGame.board game) ≤ 32)%nat ∧
    (countPiece blackPawn (ChessGame.board game) ≤
     countPiece blackPawn ChessGame.initBoard)%nat ∧
    size (ChessGame.board game) = 31%nat ∧
    countPiece blackPawn (ChessGame.board game) = 7%nat ∧
    countPiece blackPawn ChessGame.initBoard = 8%nat.
Proof.
  eexists. split; [by vm_compute|].
  match goal with
  | |- ChessGame.reachable ?g ∧ _ =>
      assert (playMoves (ChessGame.new (js "1"))
                [ (js "e2", js "e4", js "t1"); (js "d7", js "d5", js "t2");
                  (js "e4", js "d5", js "t3") ] = Some g)
        as Hplay by (by vm_compute);
      pose proof (playMoves_reachable _ _ _ (ChessGame.reachable_new (js "1")) Hplay)
        as Hreach;
      destruct (reachable_board_well_formed g Hreach) as (Hwf & Hsize & Hcount);
      split; [exact Hreach|]; split; [exact Hwf|]; split; [exact Hsize|];
      split; [exact (Hcount blackPawn)|]
  end.
  split; [by vm_compute|]. split; by vm_compute.
Defined.

(** 1. e4 d5 2. exd5: the capture leaves 31 pieces. *)
Lemma accepted_move_piece_count_exd5 :
  ∃ game game',
    playMoves (ChessGame.new (js "1"))
      [ (js "e2", js "e4", js "t1"); (js "d7", js "d5", js "t2") ] = Some game ∧
    ChessGame.makeMove game (js "e4") (js "d5") (js "t3") = Some (true, game') ∧
    size (ChessGame.board game') = 31%nat.
Proof.
  do 2 eexists. split; [by vm_compute|].
  match goal with
  | |- ChessGame.makeMove ?g ?f ?t ?n = Some (true, ?g') ∧ _ =>
      assert (ChessGame.makeMove g f t n = Some (true, g')) as Hrun by (by vm_compute);
      split; [exact Hrun|];
      rewrite (accepted_move_piece_count g f t n g' Hrun)
  end.
  by vm_compute.
Defined.

(** 1. e4 d5 2. exd5: the pawn taken on d5 is black. *)
Lemma captures_take_the_other_colour_exd5 :
  ∃ game game',
    playMoves (ChessGame.new (js "1"))
      [ (js "e2", js "e4", js "t1"); (js "d7", js "d5", js "t2") ] = Some game ∧
    ChessGame.reachable game ∧
    ChessGame.makeMove game (js "e4") (js "d5") (js "t3") = Some (true, game') ∧
    ChessGame.board game !! js "d5" = Some blackPawn ∧
    getPieceColor blackPawn = Some (opposite (ChessGame.currentPlayer game)).
Proof.
  do 2 eexists. split; [by vm_compute|].
  match goal with
  | |- ChessGame.reachable ?g ∧ ChessGame.makeMove ?g ?f ?t ?n = Some (true, ?g') ∧ _ =>
      assert (playMoves (ChessGame.new (js "1"))
                [ (js "e2", js "e4", js "t1"); (js "d7", js "d5", js "t2") ] = Some g)
        as Hplay by (by vm_compute);
      pose proof (playMoves_reachable _ _ _ (ChessGame.reachable_new (js "1")) Hplay)
        as Hreach;
      assert (ChessGame.makeMove g f t n = Some (true, g')) as Hrun by (by vm_compute);
      assert (ChessGame.board g !! js "d5" = Some blackPawn) as Htarget by (by vm_compute);
      split; [exact Hreach|]; split; [exact Hrun|]; split; [exact Htarget|];
      exact (proj2 (captures_take_the_other_colour g f t n g' Hreach Hrun)
               blackPawn Htarget)
  end.
Defined.

Lemma turn_follows_history_start :
  ChessGame.reachable (ChessGame.new (js "1")) ∧
  ChessGame.currentPlayer (ChessGame.new (js "1")) = white ∧
  GameState.moveCount (ChessGame.getGameState (ChessGame.new (js "1"))) = 0%nat.
Proof.
  assert (ChessGame.reachable (ChessGame.new (js "1"))) as Hreach by constructor.
  split; [exact Hreach|].
  destruct (turn_follows_history _ Hreach) as (Hturn & Hcount & _).
  split; [exact Hturn|exact Hcount].
Defined.

(** After 1. e4 d5 the second record is Black's. *)
Lemma history_records_well_formed_d5 :
  ∃ game record,
    playMoves (ChessGame.new (js "1"))
      [ (js "e2", js "e4", js "t1"); (js "d7", js "d5", js "t2") ] = Some game ∧
    ChessGame.reachable game ∧
    ChessGame.moveHistory game !! 1%nat = Some record ∧
    ChessMove.player record = black ∧
    ChessMove.from record ≠ ChessMove.to record.
Proof.
  do 2 eexists. split; [by vm_compute|].
  match goal with
  | |- ChessGame.reachable ?g ∧ ChessGame.moveHistory ?g !! 1%nat = Some ?r ∧ _ =>
      assert (playMoves (ChessGame.new (js "1"))
                [ (js "e2", js "e4", js "t1"); (js "d7", js "d5", js "t2") ] = Some g)
        as Hplay by (by vm_compute);
      pose proof (playMoves_reachable _ _ _ (ChessGame.reachable_new (js "1")) Hplay)
        as Hreach;
      assert (ChessGame.moveHistory g !! 1%nat = Some r) as Hrecord by reflexivity;
      split; [exact Hreach|]; split; [exact Hrecord|];
      destruct (history_records_well_formed g 1%nat r Hreach Hrecord)
        as (Hplayer & _ & _ & Hne & _);
      split; [exact Hplayer|exact Hne]
  end.
Defined.

Lemma served_sessions_are_reachable_new :
  Server.served (Server.postGameNew ∅ (js "1")).2 ∧
  (Server.postGameNew ∅ (js "1")).2 !! js "1" = Some (ChessGame.new (js "1")) ∧
  ChessGame.gameId (ChessGame.new (js "1")) = js "1" ∧
  ChessGame.gameOver (ChessGame.new (js "1")) = false.
Proof.
  assert (Server.served (Server.postGameNew ∅ (js "1")).2) as Hserved
    by (apply Server.served_new, Server.served_boot).
  assert ((Server.postGameNew ∅ (js "1")).2 !! js "1" = Some (ChessGame.new (js "1")))
    as Hgame by reflexivity.
  split; [exact Hserved|]. split; [exact Hgame|].
  destruct (served_sessions_are_reachable _ _ _ Hserved Hgame) as (Hid & _ & Hover & _).
  split; [exact Hid|exact Hover].
Defined.

(** * Tic-tac-toe *)

(** ** The winner test *)

Lemma checkWinner_loop_Some board patterns p :
  TicTacToeGame.checkWinner_loop board patterns = Some p →
  ∃ pattern, pattern ∈ patterns ∧ ownsLine board p pattern.
Proof.
  induction patterns as [|[[a b] c] patterns IH]; [done|]. simpl.
  destruct (board !! a) as [[q|]|] eqn:Ha;
    [|intros (pattern & ? & ?)%IH; exists pattern; split; [by right|done]..].
  destruct (bool_decide (board !! b = Some (Some q)) &&
            bool_decide (board !! c = Some (Some q))) eqn:Hbc.
  - intros [= <-]. apply andb_true_iff in Hbc as [Hb%bool_decide_eq_true Hc%bool_decide_eq_true].
    exists (a, b, c). split; [left|done].
  - intros (pattern & ? & ?)%IH. exists pattern. split; [by right|done].
Qed.

Lemma checkWinner_loop_None board patterns :
  TicTacToeGame.checkWinner_loop board patterns = None ↔
  ∀ pattern p, pattern ∈ patterns → ¬ ownsLine board p pattern.
Proof.
  induction patterns as [|[[a b] c] patterns IH]; simpl.
  - split; [|done]. intros _ pattern p Hin. by apply elem_of_nil in Hin.
  - assert ((∀ pattern p, pattern ∈ (a, b, c) :: patterns → ¬ ownsLine board p pattern) ↔
            (∀ p, ¬ ownsLine board p (a, b, c)) ∧
            (∀ pattern p, pattern ∈ patterns → ¬ ownsLine board p pattern)) as ->.
    { split.
      - intros Hall. split; [intros p; apply Hall; left|].
        intros pattern p Hin. apply Hall. by right.
      - intros [Hhead Htail] pattern p [->|Hin]%elem_of_cons; [apply Hhead|by apply Htail]. }
    rewrite <- IH. unfold ownsLine. simpl.
    destruct (board !! a) as [[q|]|] eqn:Ha.
    + destruct (bool_decide (board !! b = Some (Some q)) &&
                bool_decide (board !! c = Some (Some q))) eqn:Hbc.
      * apply andb_true_iff in Hbc as [Hb%bool_decide_eq_true Hc%bool_decide_eq_true].
        split; [done|]. intros [Hhead _]. by destruct (Hhead q).
      * split; [|by intros [_ ?]]. intros Hrest. split; [|done].
        intros p ([= ->] & Hb & Hc).
        apply andb_false_iff in Hbc as [Hno|Hno]; by apply bool_decide_eq_false in Hno.
    + split; [|by intros [_ ?]]. intros Hrest. split; [|done]. by intros p ([=] & _).
    + split; [|by intros [_ ?]]. intros Hrest. split; [|done]. by intros p ([=] & _).
Qed.

Lemma checkWinner_loop_owned board patterns a b c q :
  ownsLine board q (a, b, c) →
  TicTacToeGame.checkWinner_loop board ((a, b, c) :: patterns) = Some q.
Proof.
  intros (Ha & Hb & Hc). simpl in *. rewrite Ha.
  by rewrite !bool_decide_eq_true_2.
Qed.

Lemma checkWinner_loop_free board patterns a b c :
  (∀ q, ¬ ownsLine board q (a, b, c)) →
  TicTacToeGame.checkWinner_loop board ((a, b, c) :: patterns) =
  TicTacToeGame.checkWinner_loop board patterns.
Proof.
  intros Hfree. simpl. destruct (board !! a) as [[q|]|] eqn:Ha; [|done..].
  destruct (bool_decide (board !! b = Some (Some q)) &&
            bool_decide (board !! c = Some (Some q))) eqn:Hbc; [|done].
  apply andb_true_iff in Hbc as [Hb%bool_decide_eq_true Hc%bool_decide_eq_true].
  by destruct (Hfree q).
Qed.

Lemma ownsLine_decide board pattern :
  (∃ q, ownsLine board q pattern) ∨ (∀ q, ¬ ownsLine board q pattern).
Proof.
  destruct pattern as [[a b] c]. unfold ownsLine. simpl.
  destruct (board !! a) as [[q|]|] eqn:Ha; [|right; by intros q ([=] & _)..].
  destruct (decide (board !! b = Some (Some q))) as [Hb|Hb];
    [|right; intros p ([= ->] & ? & _); done].
  destruct (decide (board !! c = Some (Some q))) as [Hc|Hc];
    [|right; intros p ([= ->] & _ & ?); done].
  left. by exists q.
Qed.

(** The loop names the holder of the first held line. *)
Lemma checkWinner_loop_first board patterns p :
  TicTacToeGame.checkWinner_loop board patterns = Some p ↔
  ∃ i pattern,
    patterns !! i = Some pattern ∧ ownsLine board p pattern ∧
    ∀ j pattern' q, (j < i)%nat → patterns !! j = Some pattern' →
                    ¬ ownsLine board q pattern'.
Proof.
  induction patterns as [|[[a b] c] patterns IH].
  - split; [done|]. by intros (i & pattern & Hi & _).
  - destruct (ownsLine_decide board (a, b, c)) as [[q Hq]|Hfree].
    + rewrite (checkWinner_loop_owned _ _ _ _ _ _ Hq). split.
      * intros [= ->]. exists 0%nat, (a, b, c). split; [done|]. split; [done|].
        intros j pattern' r Hj. lia.
      * intros (i & pattern & Hi & Hp & Hbefore). destruct i as [|i].
        -- injection Hi as <-. destruct Hq as (Hq & _), Hp as (Hp & _). congruence.
        -- by destruct (Hbefore 0%nat (a, b, c) q ltac:(lia) eq_refl).
    + rewrite (checkWinner_loop_free _ _ _ _ _ Hfree), IH. split.
      * intros (i & pattern & Hi & Hp & Hbefore). exists (S i), pattern.
        split; [done|]. split; [done|]. intros j pattern' r Hj Hlookup.
        destruct j as [|j]; [injection Hlookup as <-; apply Hfree|].
        apply (Hbefore j); [lia|done].
      * intros (i & pattern & Hi & Hp & Hbefore). destruct i as [|i].
        -- injection Hi as <-. by destruct (Hfree p).
        -- exists i, pattern. split; [done|]. split; [done|].
           intros j pattern' r Hj Hlookup. apply (Hbefore (S j)); [lia|done].
Qed.

(** ** The session *)

Lemma ttt_makeMove_false this position :
  (TicTacToeGame.makeMove this position).1 = false →
  (TicTacToeGame.makeMove this position).2 = this.
Proof.
  unfold TicTacToeGame.makeMove.
  by destruct (negb (TicTacToeGame.isValidMove this position) ||
               TicTacToeGame.isGameOver this).
Qed.

Lemma ttt_makeMove_true this position :
  (TicTacToeGame.makeMove this position).1 = true →
  0 ≤ position < 9 ∧
  TicTacToeGame.board this !! Z.to_nat position = Some None ∧
  TicTacToeGame.isGameOver this = false.
Proof.
  unfold TicTacToeGame.makeMove, TicTacToeGame.isValidMove.
  destruct (TicTacToeGame.isGameOver this); [by rewrite orb_true_r|].
  rewrite orb_false_r.
  destruct (bool_decide (position >= 0)) eqn:H0; [|done].
  destruct (bool_decide (position < 9)) eqn:H9; [|done].
  destruct (bool_decide (_ = Some None)) eqn:Hcell; [|done].
  apply bool_decide_eq_true in H0, H9, Hcell. intros _. split_and!; (done || lia).
Qed.

Lemma occupiedCells_insert (board : list (option TicTacToeGame.Player)) i p :
  board !! i = Some None →
  occupiedCells (<[i := Some p]> board) = S (occupiedCells board).
Proof.
  unfold occupiedCells. revert i. induction board as [|cell board IH]; intros i; [done|].
  destruct i as [|i]; simpl.
  - intros [= ->]. by rewrite filter_cons_False by (simpl; by intros [? ?]).
  - intros Hcell. rewrite !filter_cons. case_decide; simpl; by rewrite IH.
Qed.

(** The facts that hold of every reachable session. *)
Lemma ttt_reachable_inv this :
  TicTacToeGame.reachable this →
  length (TicTacToeGame.board this) = 9%nat ∧
  TicTacToeGame.moveCount this = Z.of_nat (occupiedCells (TicTacToeGame.board this)) ∧
  TicTacToeGame.currentPlayer this =
    (if Z.even (TicTacToeGame.moveCount this) then TicTacToeGame.X else TicTacToeGame.O) ∧
  TicTacToeGame.winner this = TicTacToeGame.checkWinner this ∧
  TicTacToeGame.isDraw this =
    negb (bool_decide (is_Some (TicTacToeGame.winner this))) &&
    bool_decide (TicTacToeGame.moveCount this = 9) ∧
  TicTacToeGame.isGameOver this =
    bool_decide (TicTacToeGame.winner this ≠ None) || TicTacToeGame.isDraw this ∧
  (∀ p, TicTacToeGame.winner this = Some p → TicTacToeGame.currentPlayer this = otherPlayer p).
Proof.
  induction 1 as [gameId|this position _ (Hlen & Hcount & Hturn & Hwin & Hdraw & Hover & Hlast)].
  - by split_and!.
  - destruct (TicTacToeGame.makeMove this position).1 eqn:Hok;
      [|by rewrite (ttt_makeMove_false _ _ Hok)].
    destruct (ttt_makeMove_true _ _ Hok) as (Hpos & Hcell & Hnotover).
    unfold TicTacToeGame.makeMove in *.
    destruct (negb (TicTacToeGame.isValidMove this position) ||
              TicTacToeGame.isGameOver this); [done|].
    cbn -[TicTacToeGame.checkWinner_loop TicTacToeGame.winPatterns occupiedCells Z.add Z.even]. clear Hok.
    split_and!; try done.
    + by rewrite length_insert.
    + rewrite (occupiedCells_insert _ _ _ Hcell). lia.
    + rewrite Z.add_1_r, Z.even_succ, <- Z.negb_even, Hturn.
      by destruct (Z.even (TicTacToeGame.moveCount this)).
    + intros q Hq. unfold TicTacToeGame.checkWinner in Hq.
      cbn -[TicTacToeGame.checkWinner_loop TicTacToeGame.winPatterns] in Hq.
      destruct (decide (q = TicTacToeGame.currentPlayer this)) as [->|Hother].
      { by destruct (TicTacToeGame.currentPlayer this). }
      exfalso.
      apply checkWinner_loop_Some in Hq as ([[a b] c] & Hin & Ha & Hb & Hc).
      simpl in Ha, Hb, Hc.
      assert (∀ i, <[Z.to_nat position := Some (TicTacToeGame.currentPlayer this)]>
                     (TicTacToeGame.board this) !! i = Some (Some q) →
                   TicTacToeGame.board this !! i = Some (Some q)) as Hold.
      { intros i Hi. destruct (decide (i = Z.to_nat position)) as [->|Hne].
        - rewrite list_lookup_insert_eq in Hi by (by eapply lookup_lt_Some). congruence.
        - by rewrite list_lookup_insert_ne in Hi. }
      apply Hold in Ha, Hb, Hc.
      assert (TicTacToeGame.checkWinner this ≠ None) as Hwon.
      { unfold TicTacToeGame.checkWinner. rewrite checkWinner_loop_None.
        intros Hnone. by apply (Hnone (a, b, c) q Hin). }
      rewrite <- Hwin in Hwon. rewrite Hover in Hnotover.
      by rewrite (bool_decide_eq_true_2 _ Hwon) in Hnotover.
Qed.

(** In every reachable session the fields agree with the board. The array
    keeps its nine cells; [moveCount] is the number of marks, between 0 and
    9; X is to move exactly when that number is even; [winner] is what
    [checkWinner] finds on the board; [isDraw] says that nobody won and the
    board is full; and [isGameOver] says that somebody won or it is a draw. *)
Theorem ttt_fields_agree_with_board (this : TicTacToeGame.t) :
  TicTacToeGame.reachable this →
  length (TicTacToeGame.board this) = 9%nat ∧
  TicTacToeGame.moveCount this = Z.of_nat (occupiedCells (TicTacToeGame.board this)) ∧
  0 ≤ TicTacToeGame.moveCount this ≤ 9 ∧
  TicTacToeGame.currentPlayer this =
    (if Z.even (TicTacToeGame.moveCount this) then TicTacToeGame.X else TicTacToeGame.O) ∧
  TicTacToeGame.winner this = TicTacToeGame.checkWinner this ∧
  (TicTacToeGame.isDraw this = true ↔
   TicTacToeGame.winner this = None ∧ TicTacToeGame.moveCount this = 9) ∧
  (TicTacToeGame.isGameOver this = true ↔
   TicTacToeGame.winner this ≠ None ∨ TicTacToeGame.isDraw this = true).
Proof.
  intros (Hlen & Hcount & Hturn & Hwin & Hdraw & Hover & _)%ttt_reachable_inv.
  assert (0 ≤ TicTacToeGame.moveCount this ≤ 9) as [? ?].
  { rewrite Hcount. unfold occupiedCells.
    pose proof (length_filter (λ cell : option TicTacToeGame.Player, is_Some cell)
                  (TicTacToeGame.board this)). lia. }
  split_and!; try done.
  - rewrite Hdraw, andb_true_iff, negb_true_iff, bool_decide_eq_false, bool_decide_eq_true.
    by rewrite <- eq_None_not_Some.
  - by rewrite Hover, orb_true_iff, bool_decide_eq_true.
Qed.

Lemma ttt_fields_agree_after_centre :
  TicTacToeGame.reachable (TicTacToeGame.makeMove (TicTacToeGame.new (js "1")) 4).2 ∧
  TicTacToeGame.moveCount (TicTacToeGame.makeMove (TicTacToeGame.new (js "1")) 4).2 = 1 ∧
  TicTacToeGame.currentPlayer (TicTacToeGame.makeMove (TicTacToeGame.new (js "1")) 4).2 =
    TicTacToeGame.O.
Proof.
  assert (TicTacToeGame.reachable
            (TicTacToeGame.makeMove (TicTacToeGame.new (js "1")) 4).2) as Hreach
    by (apply TicTacToeGame.reachable_makeMove; constructor).
  split; [exact Hreach|].
  destruct (ttt_fields_agree_with_board _ Hreach) as (_ & Hcount & _ & Hturn & _).
  split; [reflexivity|exact Hturn].
Defined.

(** In every reachable session a winner is the player who moved last, holds
    one of the eight lines, and the game is over and not a draw. *)
Theorem ttt_winner_moved_last (this : TicTacToeGame.t) (p : TicTacToeGame.Player) :
  TicTacToeGame.reachable this →
  TicTacToeGame.winner this = Some p →
  TicTacToeGame.currentPlayer this = otherPlayer p ∧
  (∃ pattern, pattern ∈ TicTacToeGame.winPatterns ∧
              ownsLine (TicTacToeGame.board this) p pattern) ∧
  TicTacToeGame.isGameOver this = true ∧
  TicTacToeGame.isDraw this = false.
Proof.
  intros (_ & _ & _ & Hwin & Hdraw & Hover & Hlast)%ttt_reachable_inv Hp.
  split_and!.
  - by apply Hlast.
  - apply checkWinner_loop_Some. by rewrite <- Hp, Hwin.
  - rewrite Hover, Hp. by rewrite bool_decide_eq_true_2.
  - rewrite Hdraw, Hp. by rewrite (bool_decide_eq_true_2 (is_Some (Some p))) by by eexists.
Qed.

(** X takes the top row against O's middle-row replies. *)
Lemma ttt_winner_top_row :
  let game := foldl (λ g position, (TicTacToeGame.makeMove g position).2)
                (TicTacToeGame.new (js "1")) [0; 3; 1; 4; 2] in
  TicTacToeGame.reachable game ∧
  TicTacToeGame.winner game = Some TicTacToeGame.X ∧
  TicTacToeGame.currentPlayer game = otherPlayer TicTacToeGame.X ∧
  TicTacToeGame.isGameOver game = true.
Proof.
  intros game.
  assert (TicTacToeGame.reachable game) as Hreach
    by (repeat apply TicTacToeGame.reachable_makeMove; constructor).
  assert (TicTacToeGame.winner game = Some TicTacToeGame.X) as Hwin by reflexivity.
  destruct (ttt_winner_moved_last game TicTacToeGame.X Hreach Hwin) as (Hturn & _ & Hover & _).
  by split_and!.
Defined.

(** A game takes at most nine moves. An accepted move raises [moveCount] by
    one from below nine, and at nine the game is over, so the tenth call is
    always refused. *)
Theorem ttt_ends_within_nine_moves (this : TicTacToeGame.t) (position : Z) :
  TicTacToeGame.reachable this →
  (TicTacToeGame.moveCount this = 9 → TicTacToeGame.isGameOver this = true) ∧
  ((TicTacToeGame.makeMove this position).1 = true →
   TicTacToeGame.moveCount this < 9 ∧
   TicTacToeGame.moveCount (TicTacToeGame.makeMove this position).2 =
     TicTacToeGame.moveCount this + 1) ∧
  (TicTacToeGame.moveCount this = 9 → (TicTacToeGame.makeMove this position).1 = false).
Proof.
  intros (Hlen & Hcount & _ & _ & Hdraw & Hover & _)%ttt_reachable_inv.
  assert (TicTacToeGame.moveCount this = 9 → TicTacToeGame.isGameOver this = true) as Hnine.
  { intros Hfull. rewrite Hover, Hdraw, (bool_decide_eq_true_2 _ Hfull), andb_true_r.
    destruct (TicTacToeGame.winner this) as [p|].
    - by rewrite bool_decide_eq_true_2.
    - rewrite (bool_decide_eq_false_2 (is_Some None)) by by intros [? ?].
      by rewrite orb_true_r. }
  assert ((TicTacToeGame.makeMove this position).1 = true →
          TicTacToeGame.moveCount this < 9 ∧
          TicTacToeGame.moveCount (TicTacToeGame.makeMove this position).2 =
            TicTacToeGame.moveCount this + 1) as Hstep.
  { intros Hok. destruct (ttt_makeMove_true _ _ Hok) as (Hpos & Hcell & Hnotover). split.
    - rewrite Hcount. unfold occupiedCells.
      assert (length (filter (λ cell : option TicTacToeGame.Player, is_Some cell)
                        (TicTacToeGame.board this))
              < length (TicTacToeGame.board this))%nat; [|lia].
      apply (length_filter_lt _ _ None); [by eapply list_elem_of_lookup_2|by intros [? ?]].
    - revert Hok. unfold TicTacToeGame.makeMove.
      by destruct (negb (TicTacToeGame.isValidMove this position) ||
                   TicTacToeGame.isGameOver this). }
  split_and!; try done.
  intros Hfull. destruct (TicTacToeGame.makeMove this position).1 eqn:Hok; [|done].
  destruct (Hstep eq_refl). lia.
Qed.

Lemma ttt_first_move_counts :
  TicTacToeGame.reachable (TicTacToeGame.new (js "1")) ∧
  (TicTacToeGame.makeMove (TicTacToeGame.new (js "1")) 4).1 = true ∧
  TicTacToeGame.moveCount (TicTacToeGame.makeMove (TicTacToeGame.new (js "1")) 4).2 =
    TicTacToeGame.moveCount (TicTacToeGame.new (js "1")) + 1.
Proof.
  assert (TicTacToeGame.reachable (TicTacToeGame.new (js "1"))) as Hreach by constructor.
  split; [exact Hreach|]. split; [reflexivity|].
  destruct (ttt_ends_within_nine_moves _ 4 Hreach) as (_ & Hstep & _).
  by destruct (Hstep eq_refl).
Defined.

Lemma ttt_makeMove_lookup this position i :
  TicTacToeGame.board (TicTacToeGame.makeMove this position).2 !! i =
  if (TicTacToeGame.makeMove this position).1 && bool_decide (i = Z.to_nat position)
  then Some (Some (TicTacToeGame.currentPlayer this))
  else TicTacToeGame.board this !! i.
Proof.
  destruct (TicTacToeGame.makeMove this position).1 eqn:Hok;
    [|by rewrite (ttt_makeMove_false _ _ Hok)].
  destruct (ttt_makeMove_true _ _ Hok) as (_ & Hcell & _).
  revert Hok. unfold TicTacToeGame.makeMove.
  destruct (negb (TicTacToeGame.isValidMove this position) ||
            TicTacToeGame.isGameOver this); [done|]. intros _.
  cbn -[TicTacToeGame.checkWinner_loop TicTacToeGame.winPatterns].
  case_bool_decide as Hi.
  - subst i. apply list_lookup_insert_eq. by eapply lookup_lt_Some.
  - by apply list_lookup_insert_ne.
Qed.

(** In a reachable session the lines on the board all belong to one
    player. *)
Lemma ttt_reachable_one_owner this :
  TicTacToeGame.reachable this →
  ∀ p q pattern pattern',
    pattern ∈ TicTacToeGame.winPatterns → pattern' ∈ TicTacToeGame.winPatterns →
    ownsLine (TicTacToeGame.board this) p pattern →
    ownsLine (TicTacToeGame.board this) q pattern' →
    p = q.
Proof.
  induction 1 as [gameId|this position Hreach IH].
  - intros p q pattern pattern' Hin _ Hp _. exfalso.
    assert (TicTacToeGame.checkWinner_loop (replicate 9 None) TicTacToeGame.winPatterns
            = None) as Hnone by reflexivity.
    rewrite checkWinner_loop_None in Hnone. by apply (Hnone pattern p Hin).
  - destruct (TicTacToeGame.makeMove this position).1 eqn:Hok;
      [|by rewrite (ttt_makeMove_false _ _ Hok)].
    destruct (ttt_makeMove_true _ _ Hok) as (_ & Hcell & Hnotover).
    apply ttt_reachable_inv in Hreach as (_ & _ & _ & Hwin & _ & Hover & _).
    assert (∀ r pattern, pattern ∈ TicTacToeGame.winPatterns →
              ownsLine (TicTacToeGame.board (TicTacToeGame.makeMove this position).2)
                r pattern →
              r = TicTacToeGame.currentPlayer this) as Hmover.
    { intros r [[a b] c] Hin (Ha & Hb & Hc). simpl in Ha, Hb, Hc.
      destruct (decide (r = TicTacToeGame.currentPlayer this)) as [|Hother]; [done|].
      exfalso.
      assert (∀ i, TicTacToeGame.board (TicTacToeGame.makeMove this position).2 !! i =
                     Some (Some r) →
                   TicTacToeGame.board this !! i = Some (Some r)) as Hkeep.
      { intros i. rewrite ttt_makeMove_lookup, Hok. simpl.
        destruct (bool_decide (i = Z.to_nat position)); congruence. }
      assert (ownsLine (TicTacToeGame.board this) r (a, b, c)) as Hold
        by (split_and!; by apply Hkeep).
      assert (TicTacToeGame.checkWinner this ≠ None) as Hwon.
      { unfold TicTacToeGame.checkWinner. rewrite checkWinner_loop_None.
        intros Hnone. by apply (Hnone (a, b, c) r Hin). }
      rewrite <- Hwin in Hwon. rewrite Hover in Hnotover.
      by rewrite (bool_decide_eq_true_2 _ Hwon) in Hnotover. }
    intros p q pattern pattern' Hin Hin' Hp Hq.
    by rewrite (Hmover p pattern Hin Hp), (Hmover q pattern' Hin' Hq).
Qed.

(** [checkWinner] answers [null] exactly when nobody holds any of the eight
    lines. Otherwise it names the holder of the first held line in the order
    of the table, so on a board where two players hold a line the earlier
    line decides. In a reachable session that cannot happen, and
    [checkWinner] names a player exactly when that player holds a line. *)
Theorem checkWinner_finds_lines (this : TicTacToeGame.t) (p : TicTacToeGame.Player) :
  (TicTacToeGame.checkWinner this = None ↔
   ∀ pattern q, pattern ∈ TicTacToeGame.winPatterns →
                ¬ ownsLine (TicTacToeGame.board this) q pattern) ∧
  (TicTacToeGame.checkWinner this = Some p ↔
   ∃ i pattern,
     TicTacToeGame.winPatterns !! i = Some pattern ∧
     ownsLine (TicTacToeGame.board this) p pattern ∧
     ∀ j pattern' q, (j < i)%nat → TicTacToeGame.winPatterns !! j = Some pattern' →
                     ¬ ownsLine (TicTacToeGame.board this) q pattern') ∧
  (TicTacToeGame.reachable this →
   (TicTacToeGame.checkWinner this = Some p ↔
    ∃ pattern, pattern ∈ TicTacToeGame.winPatterns ∧
               ownsLine (TicTacToeGame.board this) p pattern)).
Proof.
  split_and!.
  - apply checkWinner_loop_None.
  - apply checkWinner_loop_first.
  - intros Hreach. split; [apply checkWinner_loop_Some|].
    intros (pattern & Hin & Hp).
    destruct (TicTacToeGame.checkWinner this) as [q|] eqn:Hq.
    + apply checkWinner_loop_Some in Hq as (pattern' & Hin' & Hq).
      f_equal. by apply (ttt_reachable_one_owner this Hreach q p pattern' pattern).
    + unfold TicTacToeGame.checkWinner in Hq. rewrite checkWinner_loop_None in Hq.
      by destruct (Hq pattern p Hin).
Qed.

(** With X on the top row and O on the middle row, [checkWinner] names X:
    the top row comes first in the table. *)
Example checkWinner_two_holders :
  let this :=
    {| TicTacToeGame.gameId := js "1";
       TicTacToeGame.board :=
         [ Some TicTacToeGame.X; Some TicTacToeGame.X; Some TicTacToeGame.X;
           Some TicTacToeGame.O; Some TicTacToeGame.O; Some TicTacToeGame.O;
           None; None; None ];
       TicTacToeGame.currentPlayer := TicTacToeGame.X;
       TicTacToeGame.winner := None;
       TicTacToeGame.isDraw := false;
       TicTacToeGame.isGameOver := false;
       TicTacToeGame.moveCount := 6 |} in
  TicTacToeGame.checkWinner this = Some TicTacToeGame.X ∧
  ownsLine (TicTacToeGame.board this) TicTacToeGame.O (3, 4, 5)%nat.
Proof. by vm_compute. Qed.

(** X takes the top row against O's middle-row replies, and is named. *)
Lemma checkWinner_finds_top_row :
  let game := foldl (λ g position, (TicTacToeGame.makeMove g position).2)
                (TicTacToeGame.new (js "1")) [0; 3; 1; 4; 2] in
  TicTacToeGame.reachable game ∧
  ownsLine (TicTacToeGame.board game) TicTacToeGame.X (0, 1, 2)%nat ∧
  TicTacToeGame.checkWinner game = Some TicTacToeGame.X.
Proof.
  intros game.
  assert (TicTacToeGame.reachable game) as Hreach
    by (repeat apply TicTacToeGame.reachable_makeMove; constructor).
  assert (ownsLine (TicTacToeGame.board game) TicTacToeGame.X (0, 1, 2)%nat) as Hline
    by (repeat split).
  destruct (checkWinner_finds_lines game TicTacToeGame.X) as (_ & _ & Hnamed).
  split; [exact Hreach|]. split; [exact Hline|].
  apply (Hnamed Hreach). exists (0, 1, 2)%nat. split; [constructor|exact Hline].
Defined.

(** A mark is permanent. Whatever call follows, accepted or refused, a cell
    that holds a mark keeps it; an accepted call writes the mover's mark into
    the chosen cell, which was empty, and no other cell changes. *)
Theorem ttt_marks_are_permanent (this : TicTacToeGame.t) (position : Z) :
  (∀ i p, TicTacToeGame.board this !! i = Some (Some p) →
          TicTacToeGame.board (TicTacToeGame.makeMove this position).2 !! i =
            Some (Some p)) ∧
  ((TicTacToeGame.makeMove this position).1 = true →
   TicTacToeGame.board this !! Z.to_nat position = Some None ∧
   TicTacToeGame.board (TicTacToeGame.makeMove this position).2 !! Z.to_nat position =
     Some (Some (TicTacToeGame.currentPlayer this)) ∧
   ∀ i, i ≠ Z.to_nat position →
        TicTacToeGame.board (TicTacToeGame.makeMove this position).2 !! i =
          TicTacToeGame.board this !! i) ∧
  ((TicTacToeGame.makeMove this position).1 = false →
   (TicTacToeGame.makeMove this position).2 = this).
Proof.
  split_and!.
  - intros i p Hmark. rewrite ttt_makeMove_lookup.
    destruct (TicTacToeGame.makeMove this position).1 eqn:Hok; [|done]. simpl.
    case_bool_decide as Hi; [|done]. subst i.
    destruct (ttt_makeMove_true _ _ Hok) as (_ & Hcell & _). congruence.
  - intros Hok. destruct (ttt_makeMove_true _ _ Hok) as (_ & Hcell & _).
    split; [done|]. split.
    + by rewrite ttt_makeMove_lookup, Hok, bool_decide_eq_true_2.
    + intros i Hi. by rewrite ttt_makeMove_lookup, Hok, bool_decide_eq_false_2.
  - apply ttt_makeMove_false.
Qed.

(** Once a tic-tac-toe game is over it is final: [makeMove] refuses every
    position and keeps the session, and both routes answer with a refusal
    and leave the registry as it is. *)
Theorem ttt_game_over_is_final
    (ticTacToeStates : TicTacToeServer.Registry) (gameId : jsstring)
    (game : TicTacToeGame.t) (position : Z) (aiResponse : TicTacToeServer.AIResponse) :
  ticTacToeStates !! gameId = Some game →
  TicTacToeGame.isGameOver game = true →
  TicTacToeGame.makeMove game position = (false, game) ∧
  (TicTacToeServer.postMove ticTacToeStates gameId position =
     (TicTacToeServer.NotYourTurn, ticTacToeStates) ∨
   TicTacToeServer.postMove ticTacToeStates gameId position =
     (TicTacToeServer.GameAlreadyOver, ticTacToeStates)) ∧
  (TicTacToeServer.postAiMove ticTacToeStates gameId aiResponse =
     (TicTacToeServer.NotAITurn, ticTacToeStates) ∨
   TicTacToeServer.postAiMove ticTacToeStates gameId aiResponse =
     (TicTacToeServer.GameAlreadyOver, ticTacToeStates)).
Proof.
  intros Hgame Hover. split_and!.
  - unfold TicTacToeGame.makeMove. by rewrite Hover, orb_true_r.
  - unfold TicTacToeServer.postMove. rewrite Hgame, Hover.
    case_bool_decide; [by left|by right].
  - unfold TicTacToeServer.postAiMove. rewrite Hgame, Hover.
    case_bool_decide; [by left|by right].
Qed.

Lemma ttt_game_over_top_row :
  let game := foldl (λ g position, (TicTacToeGame.makeMove g position).2)
                (TicTacToeGame.new (js "1")) [0; 3; 1; 4; 2] in
  TicTacToeGame.isGameOver game = true ∧
  TicTacToeGame.makeMove game 8 = (false, game) ∧
  TicTacToeServer.postAiMove {[ js "1" := game ]} (js "1")
    (TicTacToeServer.AIResolved true (Some 8)) =
    (TicTacToeServer.GameAlreadyOver, {[ js "1" := game ]}).
Proof.
  intros game.
  destruct (ttt_game_over_is_final {[ js "1" := game ]} (js "1") game 8
              (TicTacToeServer.AIResolved true (Some 8)))
    as (Hmove & _ & [Hai|Hai]); [reflexivity|reflexivity| |].
  - vm_compute in Hai. discriminate.
  - by split_and!.
Defined.

(** ** The client's twin *)

Lemma checkWinner_loops_agree board patterns :
  TicTacToeLogic.checkWinner_loop board patterns =
  TicTacToeGame.checkWinner_loop board patterns.
Proof.
  induction patterns as [|[[a b] c] patterns IH]; [done|]. simpl. by rewrite IH.
Qed.

Lemma twin_makeMove game position :
  TicTacToeLogic.makeMove (stateOf game) position =
  stateOf (TicTacToeGame.makeMove game position).2.
Proof.
  unfold TicTacToeLogic.makeMove, TicTacToeGame.makeMove,
    TicTacToeLogic.isValidMove, TicTacToeGame.isValidMove.
  cbn -[TicTacToeGame.checkWinner_loop TicTacToeLogic.checkWinner_loop].
  destruct (negb _ || TicTacToeGame.isGameOver game); [done|].
  unfold stateOf, TicTacToeLogic.checkWinner, TicTacToeGame.checkWinner.
  cbn -[TicTacToeGame.checkWinner_loop TicTacToeLogic.checkWinner_loop].
  by rewrite checkWinner_loops_agree.
Qed.

Lemma twin_reachable gameState :
  TicTacToeLogic.reachable gameState →
  ∃ game, TicTacToeGame.reachable game ∧ gameState = stateOf game.
Proof.
  induction 1 as [|gameState position _ (game & Hreach & ->)].
  - exists (TicTacToeGame.new []). split; [constructor|done].
  - exists (TicTacToeGame.makeMove game position).2.
    split; [by constructor|]. apply twin_makeMove.
Qed.

(** The client's pure [makeMove] and the server's mutating one are the same
    function: from matching states and the same position they give matching
    states, and the client hands back its argument exactly when the server
    answers false. *)
Theorem ttt_client_and_server_agree (game : TicTacToeGame.t) (position : Z) :
  TicTacToeLogic.makeMove (stateOf game) position =
    stateOf (TicTacToeGame.makeMove game position).2 ∧
  TicTacToeLogic.isValidMove (TicTacToeGame.board game) position =
    TicTacToeGame.isValidMove game position ∧
  TicTacToeLogic.checkWinner (TicTacToeGame.board game) = TicTacToeGame.checkWinner game ∧
  ((TicTacToeGame.makeMove game position).1 = false →
   TicTacToeLogic.makeMove (stateOf game) position = stateOf game).
Proof.
  split_and!.
  - apply twin_makeMove.
  - done.
  - apply checkWinner_loops_agree.
  - intros Hok. by rewrite twin_makeMove, (ttt_makeMove_false _ _ Hok).
Qed.

Lemma getWinningPattern_loop_spec board patterns :
  match TicTacToeLogic.checkWinner_loop board patterns with
  | Some p =>
      ∃ a b c, TicTacToeLogic.getWinningPattern_loop board patterns = [a; b; c] ∧
               (a, b, c) ∈ patterns ∧ ownsLine board p (a, b, c)
  | None => TicTacToeLogic.getWinningPattern_loop board patterns = []
  end.
Proof.
  induction patterns as [|[[a b] c] patterns IH]; [done|]. simpl.
  assert (match TicTacToeLogic.checkWinner_loop board patterns with
          | Some p =>
              ∃ a0 b0 c0,
                TicTacToeLogic.getWinningPattern_loop board patterns = [a0; b0; c0] ∧
                (a0, b0, c0) ∈ (a, b, c) :: patterns ∧ ownsLine board p (a0, b0, c0)
          | None => TicTacToeLogic.getWinningPattern_loop board patterns = []
          end) as IH'.
  { destruct (TicTacToeLogic.checkWinner_loop board patterns); [|done].
    destruct IH as (a0 & b0 & c0 & ? & ? & ?). exists a0, b0, c0.
    split_and!; [done|by right|done]. }
  destruct (board !! a) as [[q|]|] eqn:Ha; [|done..].
  destruct (bool_decide (board !! b = Some (Some q)) &&
            bool_decide (board !! c = Some (Some q))) eqn:Hbc; [|done].
  apply andb_true_iff in Hbc as [Hb%bool_decide_eq_true Hc%bool_decide_eq_true].
  exists a, b, c. split_and!; [done|left|done].
Qed.

(** The highlighted cells are the winner's: [getWinningPattern] is empty
    exactly when [checkWinner] is [null], and otherwise it is one of the eight
    lines, all three cells holding the player that [checkWinner] names. *)
Theorem getWinningPattern_matches_checkWinner (board : list (option TicTacToeGame.Player)) :
  (TicTacToeLogic.getWinningPattern board = [] ↔ TicTacToeLogic.checkWinner board = None) ∧
  (∀ p, TicTacToeLogic.checkWinner board = Some p →
        ∃ a b c, TicTacToeLogic.getWinningPattern board = [a; b; c] ∧
                 (a, b, c) ∈ TicTacToeLogic.winPatterns ∧
                 ownsLine board p (a, b, c)).
Proof.
  pose proof (getWinningPattern_loop_spec board TicTacToeLogic.winPatterns) as Hspec.
  unfold TicTacToeLogic.getWinningPattern, TicTacToeLogic.checkWinner.
  destruct (TicTacToeLogic.checkWinner_loop board TicTacToeLogic.winPatterns) as [p|].
  - destruct Hspec as (a & b & c & Hpat & Hin & Hline). split.
    + rewrite Hpat. split; done.
    + intros q [= <-]. by exists a, b, c.
  - split; [done|]. by intros p.
Qed.

Lemma plusOne_safe n : safeCounter n → TicTacToeLogic.plusOne n = n + 1.
Proof.
  unfold safeCounter, TicTacToeLogic.plusOne. intros Hn.
  by rewrite bool_decide_eq_true_2.
Qed.

(** On every state the client can reach and on counters below 2^53,
    [updateStats] books a game exactly once. While the game runs it returns
    the statistics as they are. For a finished game it adds one to
    [totalGames] and one to exactly one other counter ([xWins] when X won,
    [oWins] when O won, [draws] for a draw) and leaves the other two alone; so
    [totalGames = xWins + oWins + draws] is kept. *)
Theorem updateStats_keeps_balance
    (prevStats : TicTacToeLogic.GameStats) (gameState : TicTacToeLogic.GameState) :
  TicTacToeLogic.reachable gameState →
  statsSafe prevStats →
  let stats := TicTacToeLogic.updateStats prevStats gameState in
  (TicTacToeLogic.isGameOver gameState = false → stats = prevStats) ∧
  (TicTacToeLogic.isGameOver gameState = true →
   TicTacToeLogic.totalGames stats = TicTacToeLogic.totalGames prevStats + 1 ∧
   ((TicTacToeLogic.winner gameState = Some TicTacToeGame.X ∧
     TicTacToeLogic.xWins stats = TicTacToeLogic.xWins prevStats + 1 ∧
     TicTacToeLogic.oWins stats = TicTacToeLogic.oWins prevStats ∧
     TicTacToeLogic.draws stats = TicTacToeLogic.draws prevStats) ∨
    (TicTacToeLogic.winner gameState = Some TicTacToeGame.O ∧
     TicTacToeLogic.xWins stats = TicTacToeLogic.xWins prevStats ∧
     TicTacToeLogic.oWins stats = TicTacToeLogic.oWins prevStats + 1 ∧
     TicTacToeLogic.draws stats = TicTacToeLogic.draws prevStats) ∨
    (TicTacToeLogic.winner gameState = None ∧
     TicTacToeLogic.isDraw gameState = true ∧
     TicTacToeLogic.xWins stats = TicTacToeLogic.xWins prevStats ∧
     TicTacToeLogic.oWins stats = TicTacToeLogic.oWins prevStats ∧
     TicTacToeLogic.draws stats = TicTacToeLogic.draws prevStats + 1))) ∧
  (statsBalanced prevStats → statsBalanced stats).
Proof.
  intros (game & Hreach & ->)%twin_reachable (Hx & Ho & Hd & Ht) stats.
  apply ttt_reachable_inv in Hreach as (_ & _ & _ & _ & Hdraw & Hover & _).
  subst stats. unfold TicTacToeLogic.updateStats, statsBalanced. simpl.
  destruct (TicTacToeGame.isGameOver game) eqn:Hgo; simpl; [|by split_and!].
  rewrite (plusOne_safe _ Ht).
  destruct (TicTacToeGame.winner game) as [[|]|] eqn:Hwinner.
  - rewrite bool_decide_eq_true_2 by done. simpl. rewrite (plusOne_safe _ Hx).
    split_and!; [done| |lia]. intros _. split; [done|]. left. by split_and!.
  - rewrite bool_decide_eq_false_2, bool_decide_eq_true_2 by done. simpl.
    rewrite (plusOne_safe _ Ho).
    split_and!; [done| |lia]. intros _. split; [done|]. right; left. by split_and!.
  - rewrite !bool_decide_eq_false_2 by done.
    rewrite (bool_decide_eq_false_2 (None ≠ None)) in Hover by by intros Hne.
    simpl in Hover. rewrite <- Hover. simpl. rewrite (plusOne_safe _ Hd).
    split_and!; [done| |lia]. intros _. split; [done|]. right; right. by split_and!.
Qed.

(** The first game, won by X on the top row, is booked as one game and one
    win for X. *)
Lemma updateStats_first_game :
  let gameState := foldl TicTacToeLogic.makeMove TicTacToeLogic.createInitialState
                     [0; 3; 1; 4; 2] in
  let stats := TicTacToeLogic.updateStats TicTacToeLogic.createInitialStats gameState in
  TicTacToeLogic.reachable gameState ∧
  statsSafe TicTacToeLogic.createInitialStats ∧
  TicTacToeLogic.isGameOver gameState = true ∧
  TicTacToeLogic.winner gameState = Some TicTacToeGame.X ∧
  TicTacToeLogic.totalGames stats = 0 + 1 ∧
  statsBalanced stats.
Proof.
  intros gameState stats.
  assert (TicTacToeLogic.reachable gameState) as Hreach
    by (repeat apply TicTacToeLogic.reachable_makeMove; constructor).
  assert (statsSafe TicTacToeLogic.createInitialStats) as Hsafe
    by (repeat split; by vm_compute).
  destruct (updateStats_keeps_balance _ _ Hreach Hsafe) as (_ & Hover & Hbalance).
  destruct (Hover eq_refl) as (Htotal & _).
  split; [exact Hreach|]. split; [exact Hsafe|]. split; [reflexivity|].
  split; [reflexivity|]. split; [exact Htotal|]. apply Hbalance. reflexivity.
Defined.

(** At 2^53 the counter no longer moves: the double cannot hold 2^53 + 1. *)
Example updateStats_at_2_53 :
  let gameState := foldl TicTacToeLogic.makeMove TicTacToeLogic.createInitialState
                     [0; 3; 1; 4; 2] in
  let prevStats :=
    {| TicTacToeLogic.xWins := 2 ^ 53; TicTacToeLogic.oWins := 0;
       TicTacToeLogic.draws := 0; TicTacToeLogic.totalGames := 2 ^ 53 |} in
  TicTacToeLogic.updateStats prevStats gameState = prevStats.
Proof. by vm_compute. Qed.
